(** * extract_banknifty_span: SPAN risk-file extraction, embedded in Rocq

    A shallow embedding of [src/extract_banknifty_span.py].  The script
    parses a SPAN XML document, locates the BANKNIFTY option and underlying
    portfolios, and derives one margin record per option contract.

    Modelling choices:
    - text is [string]: the document is decoded as latin-1, so every
      character is one code point in 0..255 (an [ascii]); character
      references producing code points above 255 are outside the model;
    - Python [float] is IEEE binary64, modelled by [spec_float] with
      precision 53 and maximal exponent 1024 (round to nearest, ties to
      even); Python [int] is [Z];
    - the parsed document is an ElementTree: tag, optional text, children;
      object identity ([is]) is the position of a node in the tree;
    - a record is a Python dict from column names to values, a [gmap];
    - exceptions are explicit: [option] inside the per-contract [try], an
      error type for the fatal [ValueError]s. *)

From Stdlib Require Import ZArith List Bool Ascii String Lia SpecFloat DecimalString.
From stdpp Require Import gmap strings.

Open Scope Z_scope.

(** ** Python string primitives *)

Module PyStr.

Definition code (c : ascii) : Z := Z.of_N (N_of_ascii c).

Definition in_range (lo hi : Z) (c : ascii) : bool :=
  (lo <=? code c) && (code c <=? hi).

(** [str.isspace] on one latin-1 character (used by [str.strip]). *)
Definition isspace (c : ascii) : bool :=
  in_range 9 13 c || in_range 28 32 c || (code c =? 133) || (code c =? 160).

(** [str.isdigit] on one latin-1 character: 0-9 and the superscripts
    two, three and one (U+00B2, U+00B3, U+00B9). *)
Definition isdigit_char (c : ascii) : bool :=
  in_range 48 57 c || (code c =? 178) || (code c =? 179) || (code c =? 185).

(** [s.isdigit()]: non-empty and every character is a digit. *)
Definition isdigit (s : string) : bool :=
  match list_ascii_of_string s with
  | [] => false
  | l => forallb isdigit_char l
  end.

Fixpoint lstrip_with (sp : ascii -> bool) (l : list ascii) : list ascii :=
  match l with
  | c :: t => if sp c then lstrip_with sp t else l
  | [] => []
  end.

Definition strip_with (sp : ascii -> bool) (l : list ascii) : list ascii :=
  rev (lstrip_with sp (rev (lstrip_with sp l))).

(** [s.strip()] *)
Definition strip (s : string) : string :=
  string_of_list_ascii (strip_with isspace (list_ascii_of_string s)).

(** [s.replace(",", "")] *)
Definition remove_commas (s : string) : string :=
  string_of_list_ascii
    (List.filter (fun c => negb (Ascii.eqb c ","%char)) (list_ascii_of_string s)).

Definition shift_char (c : ascii) (d : Z) : ascii :=
  ascii_of_N (Z.to_N (code c + d)).

(** [str.upper] on latin-1.  The sharp s becomes "SS"; the micro sign and
    y-diaeresis have upper-case forms outside latin-1 and are kept: neither
    the kept character nor its real upper-case form is an ASCII letter. *)
Definition upper_char (c : ascii) : list ascii :=
  if in_range 97 122 c then [shift_char c (-32)]
  else if in_range 224 254 c && negb (code c =? 247) then [shift_char c (-32)]
  else if code c =? 223 then ["S"%char; "S"%char]
  else [c].

Definition upper (s : string) : string :=
  string_of_list_ascii (flat_map upper_char (list_ascii_of_string s)).

(** [str.lower] on latin-1. *)
Definition lower_char (c : ascii) : ascii :=
  if in_range 65 90 c then shift_char c 32
  else if in_range 192 222 c && negb (code c =? 215) then shift_char c 32
  else c.

Definition lower (s : string) : string :=
  string_of_list_ascii (map lower_char (list_ascii_of_string s)).

(** The slice [s[i:j]] for [0 <= i <= j]. *)
Definition slice (i j : nat) (s : string) : string := substring i (j - i) s.

(** [x or ""] for an optional text. *)
Definition or_empty (o : option string) : string :=
  match o with
  | Some s => s
  | None => ""
  end.

(** [needle in hay] *)
Fixpoint contains (needle hay : string) : bool :=
  String.prefix needle hay ||
  match hay with
  | EmptyString => false
  | String _ t => contains needle t
  end.

End PyStr.

(** ** Python floats and integers *)

Module PyNum.

Definition prec : Z := 53.
Definition emax : Z := 1024.

Abbreviation float := spec_float.

Definition fmul : float -> float -> float := SFmul prec emax.
Definition fadd : float -> float -> float := SFadd prec emax.
Definition fabs : float -> float := SFabs.
Definition flt : float -> float -> bool := SFltb.
Definition fle : float -> float -> bool := SFleb.

Definition is_nan (f : float) : bool :=
  match f with
  | S754_nan => true
  | _ => false
  end.

(** The binary64 value nearest to [n / d] (ties to even), with sign [s];
    overflow gives an infinity.  The quotient is computed with at least
    [prec + 2] bits and the remainder decides the rounding direction. *)
Definition round_ratio (s : bool) (n d : positive) : float :=
  let k := Z.max 0 (prec + 2 + Z.log2_up (Zpos d) - Z.log2 (Zpos n)) in
  let q := (Zpos n * 2 ^ k) / Zpos d in
  let r := (Zpos n * 2 ^ k) mod Zpos d in
  let loc := if r =? 0 then loc_Exact
             else loc_Inexact (Z.compare (2 * r) (Zpos d)) in
  binary_round_aux prec emax s q (- k) loc.

(** [float(n)] for an [int]; [None] is [OverflowError]. *)
Definition float_of_int (n : Z) : option float :=
  match n with
  | Z0 => Some (S754_zero false)
  | Zpos p =>
      match round_ratio false p 1 with
      | S754_infinity _ => None
      | f => Some f
      end
  | Zneg p =>
      match round_ratio true p 1 with
      | S754_infinity _ => None
      | f => Some f
      end
  end.

(** [int(x)] for a float: truncation toward zero; [None] is the
    [OverflowError] or [ValueError] raised on an infinity or a NaN. *)
Definition int_of_float (f : float) : option Z :=
  match f with
  | S754_zero _ => Some 0
  | S754_finite s m e =>
      let v := if 0 <=? e then Zpos m * 2 ^ e else Zpos m / 2 ^ (- e) in
      Some (if s then - v else v)
  | S754_infinity _ | S754_nan => None
  end.

(** [a / b] for two [int]s with [b > 0]: the correctly rounded quotient;
    [None] is [OverflowError]. *)
Definition int_truediv (a : Z) (b : positive) : option float :=
  match a with
  | Z0 => Some (S754_zero false)
  | Zpos p =>
      match round_ratio false p b with
      | S754_infinity _ => None
      | f => Some f
      end
  | Zneg p =>
      match round_ratio true p b with
      | S754_infinity _ => None
      | f => Some f
      end
  end.

(** [x * n] for a float [x] and an [int] [n]: [n] is converted first. *)
Definition fmul_int (x : float) (n : Z) : option float :=
  match float_of_int n with
  | Some y => Some (fmul x y)
  | None => None
  end.

(** *** [float(str)] *)

Definition is_dec (c : ascii) : bool := PyStr.in_range 48 57 c.

(** Whitespace accepted around a number: the C locale's [isspace], after
    the two non-ASCII latin-1 spaces have been turned into blanks. *)
Definition c_isspace (c : ascii) : bool :=
  PyStr.in_range 9 13 c || (PyStr.code c =? 32)
  || (PyStr.code c =? 133) || (PyStr.code c =? 160).

Definition digit_val (c : ascii) : Z := PyStr.code c - 48.

Definition digits_val (l : list ascii) : Z :=
  fold_left (fun acc c => 10 * acc + digit_val c) l 0.

Fixpoint span_digits (l : list ascii) : list ascii * list ascii :=
  match l with
  | c :: t =>
      if is_dec c then let (d, r) := span_digits t in (c :: d, r)
      else ([], l)
  | [] => ([], [])
  end.

(** Underscores may only stand between two digits; they are removed.
    [prev] is the previous character of the input. *)
Fixpoint strip_underscores (prev : option ascii) (l : list ascii)
  : option (list ascii) :=
  match l with
  | [] =>
      match prev with
      | Some "_"%char => None
      | _ => Some []
      end
  | c :: t =>
      if Ascii.eqb c "_"%char then
        match prev with
        | Some p => if is_dec p then strip_underscores (Some c) t else None
        | None => None
        end
      else
        match prev with
        | Some "_"%char =>
            if is_dec c then option_map (cons c) (strip_underscores (Some c) t)
            else None
        | _ => option_map (cons c) (strip_underscores (Some c) t)
        end
  end.

Definition take_sign (l : list ascii) : bool * list ascii :=
  match l with
  | "-"%char :: t => (true, t)
  | "+"%char :: t => (false, t)
  | _ => (false, l)
  end.

(** The optional exponent part, which must reach the end of the text. *)
Definition parse_exponent (l : list ascii) : option Z :=
  match l with
  | [] => Some 0
  | c :: t =>
      if Ascii.eqb c "e"%char || Ascii.eqb c "E"%char then
        let (s, t1) := take_sign t in
        match span_digits t1 with
        | ((_ :: _) as d, []) => Some (if s then - digits_val d else digits_val d)
        | _ => None
        end
      else None
  end.

(** The decimal value [m * 10 ^ e], correctly rounded. *)
Definition decimal_to_float (s : bool) (m e : Z) : float :=
  match m with
  | Zpos p =>
      if 0 <=? e then round_ratio s (p * Z.to_pos (10 ^ e)) 1
      else round_ratio s p (Z.to_pos (10 ^ (- e)))
  | _ => S754_zero s
  end.

Definition parse_decimal (s : bool) (l : list ascii) : option float :=
  let (ip, r1) := span_digits l in
  let (fp, r2) :=
    match r1 with
    | "."%char :: t => span_digits t
    | _ => ([], r1)
    end in
  match ip ++ fp with
  | [] => None
  | ds =>
      match parse_exponent r2 with
      | Some e => Some (decimal_to_float s (digits_val ds) (e - Z.of_nat (length fp)))
      | None => None
      end
  end.

Definition parse_inf_nan (s : bool) (l : list ascii) : option float :=
  let w := PyStr.lower (string_of_list_ascii l) in
  if String.eqb w "inf" || String.eqb w "infinity" then Some (S754_infinity s)
  else if String.eqb w "nan" then Some S754_nan
  else None.

(** [float(x)] for a [str]; [None] is [ValueError]. *)
Definition float_of_str (x : string) : option float :=
  let l := PyStr.strip_with c_isspace (list_ascii_of_string x) in
  match strip_underscores None l with
  | None => None
  | Some l1 =>
      let (s, body) := take_sign l1 in
      match parse_decimal s body with
      | Some f => Some f
      | None => parse_inf_nan s body
      end
  end.

(** [safe_float]: the [ValueError] becomes [None]. *)
Definition safe_float (x : string) : option float := float_of_str x.

(** *** [format(x, ".4f")] *)

Definition digit_char (d : Z) : ascii := ascii_of_N (Z.to_N (48 + d)).

Definition string_of_nonneg (n : Z) : string :=
  NilZero.string_of_uint (N.to_uint (Z.to_N n)).

(** [m * 2 ^ e * 10 ^ 4] rounded to the nearest integer, ties to even. *)
Definition scaled4 (m : positive) (e : Z) : Z :=
  let n := Zpos m * 10000 in
  if 0 <=? e then n * 2 ^ e
  else
    let d := 2 ^ (- e) in
    let q := n / d in
    let r := n mod d in
    match Z.compare (2 * r) d with
    | Lt => q
    | Gt => q + 1
    | Eq => if Z.even q then q else q + 1
    end.

Definition fixed4 (neg : bool) (n : Z) : string :=
  let ip := n / 10000 in
  let fp := n mod 10000 in
  ((if neg then "-" else "") +:+ string_of_nonneg ip +:+ "." +:+
   string_of_list_ascii
     [digit_char (fp / 1000); digit_char (fp / 100 mod 10);
      digit_char (fp / 10 mod 10); digit_char (fp mod 10)])%string.

Definition format_4f (x : float) : string :=
  match x with
  | S754_nan => "nan"
  | S754_infinity s => if s then "-inf" else "inf"
  | S754_zero s => fixed4 s 0
  | S754_finite s m e => fixed4 s (scaled4 m e)
  end.

(** Python's [min] over a non-empty sequence: the first element is kept
    until a strictly smaller one is met. *)
Fixpoint min_from (m : float) (l : list float) : float :=
  match l with
  | [] => m
  | x :: t => min_from (if flt x m then x else m) t
  end.

Definition py_min (l : list float) : option float :=
  match l with
  | [] => None
  | x :: t => Some (min_from x t)
  end.

End PyNum.


(** ** The parsed document: an ElementTree *)

Module ET.

#[warnings="-register-all"]
Inductive Element : Type :=
  Elem (tag : string) (text : option string) (children : list Element).

Definition tag (e : Element) : string :=
  match e with Elem t _ _ => t end.
Definition text (e : Element) : option string :=
  match e with Elem _ x _ => x end.
Definition children (e : Element) : list Element :=
  match e with Elem _ _ cs => cs end.

(** A node of the tree is an element together with its position (the
    child indices from the root); two nodes are the same Python object
    exactly when their positions are equal. *)
Definition path := list nat.
Definition Node : Type := path * Element.

Definition same_node (a b : Node) : bool := bool_decide (fst a = fst b).

Definition ntag (n : Node) : string := tag (snd n).
Definition ntext (n : Node) : option string := text (snd n).

(** [for c in n]: the direct children, in document order. *)
Definition kids (n : Node) : list Node :=
  imap (fun i c => (fst n ++ [i], c)) (children (snd n)).

(** [n.iter()]: the node and all its descendants, in document order. *)
Fixpoint iter_at (p : path) (e : Element) : list Node :=
  match e with
  | Elem _ _ cs =>
      (p, e) ::
      (fix go (i : nat) (l : list Element) : list Node :=
         match l with
         | [] => []
         | c :: t => iter_at (p ++ [i]) c ++ go (S i) t
         end) 0%nat cs
  end.

Definition iter (n : Node) : list Node := iter_at (fst n) (snd n).

(** [n.findall(t)] and [n.find(t)] for a plain tag [t]. *)
Definition findall (t : string) (n : Node) : list Node :=
  List.filter (fun c => String.eqb (ntag c) t) (kids n).

Definition find (t : string) (n : Node) : option Node :=
  List.find (fun c => String.eqb (ntag c) t) (kids n).

(** [n.findall(".//t")] and [n.find(".//t")]: proper descendants only. *)
Definition findall_desc (t : string) (n : Node) : list Node :=
  List.filter (fun c => String.eqb (ntag c) t) (tl (iter n)).

Definition find_desc (t : string) (n : Node) : option Node :=
  List.find (fun c => String.eqb (ntag c) t) (tl (iter n)).

(** [n.findtext(t)]: [None] when there is no such child, the empty string
    when the child has no text. *)
Definition findtext (t : string) (n : Node) : option string :=
  match find t n with
  | Some c => Some (PyStr.or_empty (ntext c))
  | None => None
  end.

(** [get_parent]: the first node of [root_elem.iter()] one of whose
    children is [child_elem]. *)
Definition get_parent (root_elem child_elem : Node) : option Node :=
  List.find (fun p => existsb (fun c => same_node c child_elem) (kids p))
            (iter root_elem).

End ET.

Import PyNum ET.

(** ** User settings *)

Definition SYMBOL : string := "BANKNIFTY".

(** The literals [0.02] and [0.02265] of the source. *)
Definition rate_2 : float := Eval vm_compute in decimal_to_float false 2 (-2).
Definition rate_2265 : float := Eval vm_compute in decimal_to_float false 2265 (-5).

Definition EXPOSURE_RATES : list float := [rate_2; rate_2265].

Definition FALLBACK_LOT : Z := 35.

(** ** Risk-tree locator *)

Inductive error : Type :=
| PointInTimeNotFound
| ClearingOrgNotFound
| OptionsBlockNotFound
| NoSeriesNodes.

Definition is_symbol (s : string) : bool :=
  String.eqb (PyStr.upper (PyStr.strip s)) SYMBOL.

(** The parents of all [pfCode] nodes whose text is the symbol. *)
Definition bank_pf_parents (clearing : Node) : list Node :=
  fold_left
    (fun acc pf =>
       if is_symbol (PyStr.or_empty (ntext pf)) then
         match get_parent clearing pf with
         | Some parent => acc ++ [parent]
         | None => acc
         end
       else acc)
    (findall_desc "pfCode" clearing) [].

(** The two portfolio variables [oop_pf] and [phy_pf]. *)
Record located : Type := Located { oop_pf : option Node; phy_pf : option Node }.

Definition tag_is (t : string) (n : Node) : bool :=
  String.eqb (PyStr.lower (ntag n)) (PyStr.lower t).

Definition among_parents (clearing : Node) : located :=
  let ps := bank_pf_parents clearing in
  {| oop_pf := List.find (fun n => tag_is "ooppf" n || tag_is "oopPf" n) ps;
     phy_pf := List.find (tag_is "phyPf") ps |}.

Definition by_tag (clearing : Node) (l : located) : located :=
  {| oop_pf := match oop_pf l with
               | None => find_desc "oopPf" clearing
               | found => found
               end;
     phy_pf := match phy_pf l with
               | None => find_desc "phyPf" clearing
               | found => found
               end |}.

(** One step of the scan of the clearing node's children.  The variable
    [found_op] of the source is never assigned, so its test always holds. *)
Definition scan_child (l : located) (p : Node) : located :=
  let pfcode := PyStr.or_empty (findtext "pfCode" p) in
  if is_symbol pfcode then
    if bool_decide (find "series" p <> None) then
      {| oop_pf := Some p; phy_pf := phy_pf l |}
    else if bool_decide (find "phy" p <> None) then
      {| oop_pf := oop_pf l; phy_pf := Some p |}
    else l
  else l.

Definition by_children (clearing : Node) (l : located) : located :=
  if bool_decide (oop_pf l = None) || bool_decide (phy_pf l = None)
  then fold_left scan_child (kids clearing) l
  else l.

(** The portfolios found by the first two strategies, then by all three. *)
Definition earlier_strategies (clearing : Node) : located :=
  by_tag clearing (among_parents clearing).

Definition resolve (clearing : Node) : located :=
  by_children clearing (earlier_strategies clearing).

Definition locate (root : Element) : error + (Node * option Node) :=
  match find "pointInTime" ([], root) with
  | None => inl PointInTimeNotFound
  | Some point =>
      match find "clearingOrg" point with
      | None => inl ClearingOrgNotFound
      | Some clearing =>
          let l := resolve clearing in
          match oop_pf l with
          | None => inl OptionsBlockNotFound
          | Some o => inr (o, phy_pf l)
          end
      end
  end.

(** ** Underlying reader *)

Definition LOT_TAGS : list string :=
  ["m"; "mult"; "mktLot"; "lotSize"; "lot"; "sc"; "l"].

Definition lot_candidates (phy_node : Node) : list string :=
  omap (fun t => findtext t phy_node) LOT_TAGS.

(** The loop over the candidates: the first non-empty one that converts
    to a positive [int] ends the loop, and the lot becomes 35, not [val]. *)
Fixpoint scan_lot (cands : list string) : option Z :=
  match cands with
  | [] => None
  | cand :: rest =>
      if String.eqb cand "" then scan_lot rest
      else
        match float_of_str cand with
        | None => scan_lot rest
        | Some f =>
            match int_of_float f with
            | None => scan_lot rest
            | Some val => if 0 <? val then Some 35 else scan_lot rest
            end
        end
  end.

(** [spot] and [lot_size] before the fallback. *)
Definition read_underlying (phy : option Node) : option float * option Z :=
  match phy with
  | None => (None, None)
  | Some pf =>
      match find "phy" pf with
      | None => (None, None)
      | Some phy_node =>
          (safe_float (PyStr.or_empty (findtext "p" phy_node)),
           scan_lot (lot_candidates phy_node))
      end
  end.

Definition with_fallback (lot : option Z) : Z :=
  match lot with
  | Some n => n
  | None => FALLBACK_LOT
  end.

(** ** Record deriver *)

(** The values stored in a record. *)
Inductive pyval : Type :=
| PyNone
| PyFloat (f : float)
| PyInt (n : Z)
| PyText (s : string).

Definition of_opt_float (o : option float) : pyval :=
  match o with
  | Some f => PyFloat f
  | None => PyNone
  end.

(** A record is a dict from column names to values. *)
Abbreviation record := (gmap string pyval).

(** [expiry]: the normalised form of the stripped [pe] text. *)
Definition normalize_expiry (expiry_raw : string) : string :=
  if PyStr.isdigit expiry_raw && (String.length expiry_raw =? 8)%nat then
    (PyStr.slice 0 4 expiry_raw +:+ "-" +:+ PyStr.slice 4 6 expiry_raw +:+ "-"
     +:+ PyStr.slice 6 8 expiry_raw)%string
  else expiry_raw.

(** The characters kept by the second conversion attempt. *)
Definition numeric_char (c : ascii) : bool :=
  existsb (Ascii.eqb c) (list_ascii_of_string "0123456789-+.eE").

Definition filtered (vclean : string) : string :=
  string_of_list_ascii (List.filter numeric_char (list_ascii_of_string vclean)).

(** The body of the loop over [raw_a_vals]: [a_vals] after one more text. *)
Definition coerce_step (a_vals : list float) (v : option string) : list float :=
  match v with
  | None => a_vals
  | Some v =>
      let vclean := PyStr.remove_commas (PyStr.strip v) in
      match float_of_str vclean with
      | Some f => a_vals ++ [f]
      | None =>
          match float_of_str (filtered vclean) with
          | Some f => a_vals ++ [f]
          | None => a_vals
          end
      end
  end.

Definition coerce_values (raw_a_vals : list (option string)) : list float :=
  fold_left coerce_step raw_a_vals [].

(** The text between the braces of the two column names:
    [int(r*10000)/100] printed with four decimals.  [None] is the
    exception raised by [int] on an infinity or a NaN. *)
Definition rate_label (r : float) : option string :=
  x ← fmul_int r 10000;
  n ← int_of_float x;
  q ← int_truediv n 100;
  Some (format_4f q).

Definition exposure_key (r : float) : option string :=
  (fun l => "exposure_" +:+ l +:+ "_pct")%string <$> rate_label r.

Definition total_key (r : float) : option string :=
  (fun l => "total_" +:+ l +:+ "_pct")%string <$> rate_label r.

(** The loop over the rates, filling the dicts [exposures] and [totals]. *)
Definition rate_step (span_per_lot : float) (notional : option float)
    (acc : option (record * record)) (r : float) : option (record * record) :=
  '(exposures, totals) ← acc;
  let exp_amt := (fun n => fmul n r) <$> notional in
  let tot := fadd span_per_lot <$> exp_amt in
  ke ← exposure_key r;
  kt ← total_key r;
  Some (<[ke := of_opt_float exp_amt]> exposures,
        <[kt := of_opt_float tot]> totals).

Definition rate_columns (rates : list float) (span_per_lot : float)
    (notional : option float) : option (record * record) :=
  fold_left (rate_step span_per_lot notional) rates (Some (∅, ∅)).

(** The per-series and run-wide values a contract's record depends on. *)
Record context : Type := Context {
  ctx_expiry_raw : string;
  ctx_expiry : string;
  ctx_spot : option float;
  ctx_lot_size : Z;
  ctx_rates : list float
}.

(** The dict literal [rec = {...}] of the fixed columns. *)
Definition base_record (c : context) (typ : string)
    (strike premium delta : option float) (worst_per_unit span_per_lot : float)
    (notional : option float) : record :=
  <["notional" := of_opt_float notional]>
  (<["lot_size" := PyInt (ctx_lot_size c)]>
  (<["spot_from_rpf" := of_opt_float (ctx_spot c)]>
  (<["span_per_lot" := PyFloat span_per_lot]>
  (<["worst_RA_per_unit" := PyFloat worst_per_unit]>
  (<["delta_in_rpf" := of_opt_float delta]>
  (<["premium_in_rpf" := of_opt_float premium]>
  (<["type" := PyText typ]>
  (<["strike" := of_opt_float strike]>
  (<["expiry" := PyText (ctx_expiry c)]>
  (<["expiry_raw" := PyText (ctx_expiry_raw c)]> ∅)))))))))).

(** [notional = (spot * lot_size) if spot is not None else None]; the outer
    [None] is the exception of the int-to-float conversion. *)
Definition notional_of (c : context) : option (option float) :=
  match ctx_spot c with
  | Some spot => Some <$> fmul_int spot (ctx_lot_size c)
  | None => Some None
  end.

(** The body of the [try] for one [opt] node: [None] when the contract is
    skipped, by [continue] or by an exception.  [rec.update(d)] is the
    union that prefers the entries of [d]. *)
Definition derive_contract (c : context) (opt : Node) : option record :=
  let typ := PyStr.strip (PyStr.or_empty (findtext "o" opt)) in
  let strike_txt := PyStr.strip (PyStr.or_empty (findtext "k" opt)) in
  let strike := safe_float strike_txt in
  let premium := safe_float (PyStr.or_empty (findtext "p" opt)) in
  let delta := safe_float (PyStr.or_empty (findtext "d" opt)) in
  ra_node ← find "ra" opt;
  let raw_a_vals := map ntext (findall "a" ra_node) in
  let a_vals := coerce_values raw_a_vals in
  worst ← py_min a_vals;
  let worst_per_unit := fabs worst in
  span_per_lot ← fmul_int worst_per_unit (ctx_lot_size c);
  notional ← notional_of c;
  '(exposures, totals) ← rate_columns (ctx_rates c) span_per_lot notional;
  let rec := base_record c typ strike premium delta worst_per_unit
                         span_per_lot notional in
  Some (totals ∪ (exposures ∪ rec)).

(** What the loop over the series fixes for the contracts of [s]. *)
Definition series_context (spot : option float) (lot_size : Z)
    (rates : list float) (s : Node) : context :=
  let expiry_raw := PyStr.strip (PyStr.or_empty (findtext "pe" s)) in
  {| ctx_expiry_raw := expiry_raw;
     ctx_expiry := normalize_expiry expiry_raw;
     ctx_spot := spot;
     ctx_lot_size := lot_size;
     ctx_rates := rates |}.

(** The loop over the [opt] nodes of one series: a derived record is
    appended, a skipped contract leaves [records] as it is. *)
Definition contract_records (c : context) (records : list record)
    (opts : list Node) : list record :=
  fold_left
    (fun recs opt =>
       match derive_contract c opt with
       | Some rec => recs ++ [rec]
       | None => recs
       end)
    opts records.

Definition series_records (spot : option float) (lot_size : Z)
    (rates : list float) (records : list record) (s : Node) : list record :=
  contract_records (series_context spot lot_size rates s) records
                   (findall "opt" s).

Definition build_records (spot : option float) (lot_size : Z)
    (rates : list float) (series_nodes : list Node) : list record :=
  fold_left (series_records spot lot_size rates) series_nodes [].

(** ** The whole run, from the parsed document to the record list *)

Definition run (root : Element) : error + list record :=
  match locate root with
  | inl e => inl e
  | inr (oop, phy) =>
      let '(spot, lot) := read_underlying phy in
      let lot_size := with_fallback lot in
      match findall "series" oop with
      | [] => inl NoSeriesNodes
      | series_nodes => inr (build_records spot lot_size EXPOSURE_RATES series_nodes)
      end
  end.

(** The CSV header: the fixed columns, then two columns per rate. *)
Definition base_fieldnames : list string :=
  ["expiry_raw"; "expiry"; "strike"; "type"; "premium_in_rpf"; "delta_in_rpf";
   "worst_RA_per_unit"; "span_per_lot"; "spot_from_rpf"; "lot_size"; "notional"].

Definition fieldnames_step (acc : option (list string)) (r : float)
  : option (list string) :=
  names ← acc;
  tag_exp ← exposure_key r;
  tag_tot ← total_key r;
  Some (names ++ [tag_exp; tag_tot]).

Definition fieldnames (rates : list float) : option (list string) :=
  fold_left fieldnames_step rates (Some base_fieldnames).

(** ** Sample documents *)

Module Samples.

Definition leaf (t x : string) : Element := Elem t (Some x) [].
Definition node (t : string) (cs : list Element) : Element := Elem t None cs.

Definition ra (vals : list string) : Element := node "ra" (map (leaf "a") vals).

Definition opt1 : Element :=
  node "opt" [leaf "o" "C"; leaf "k" "48000.00"; leaf "p" "512.35"; leaf "d" "0.52";
              ra ["-120.0"; "50.0"; "-300.5"; "75.0"]].

Definition doc (pfs : list Element) : Element :=
  node "spanFile" [node "pointInTime" [node "clearingOrg" pfs]].

Definition oop (cs : list Element) : Element :=
  node "oopPf" (leaf "pfCode" "BANKNIFTY" :: cs).

Definition phy (price : string) (extra : list Element) : Element :=
  node "phyPf" [leaf "pfCode" "BANKNIFTY"; node "phy" (leaf "p" price :: extra)].

Definition minimal : Element :=
  doc [phy "48000" [leaf "lotSize" "15"];
       oop [node "series" [leaf "pe" "20250828"; opt1]]].

(** A contract with one readable and one unreadable scenario value, one
    whose values are all unreadable, and one without a risk array. *)
Definition opt_mixed : Element :=
  node "opt" [leaf "o" "P"; leaf "k" "47000"; ra ["1,234.50"; "N/A"]].

Definition opt_unreadable : Element :=
  node "opt" [leaf "o" "P"; leaf "k" "47500"; ra ["N/A"; "--"]].

Definition opt_no_ra : Element :=
  node "opt" [leaf "o" "C"; leaf "k" "47500"].

(** A contract whose only scenario text reads as a NaN. *)
Definition opt_nan : Element :=
  node "opt" [leaf "o" "C"; leaf "k" "48000"; ra ["nan"]].

Definition at_root (e : Element) : Node := ([], e).

Definition series1 : Element :=
  node "series" [leaf "pe" "20250828"; opt1; opt_unreadable; opt_no_ra; opt_mixed].

Definition ctx1 : context :=
  series_context (float_of_str "48000") 35 EXPOSURE_RATES (at_root series1).

(** A document without underlying portfolio. *)
Definition no_underlying : Element :=
  doc [oop [node "series" [leaf "pe" "DEC25"; opt1]]].

(** A document whose options portfolio has no series, and one whose only
    series has no contract. *)
Definition no_series : Element := doc [phy "48000" []; oop []].

Definition empty_series : Element :=
  doc [phy "48000" []; oop [node "series" [leaf "pe" "20250828"]]].

(** Two blocks carry the symbol and a series; there is no underlying. *)
Definition block_first : Element :=
  oop [node "series" [leaf "pe" "20250828"; opt1]].

Definition block_second : Element :=
  node "pf" [leaf "pfCode" "BANKNIFTY";
             node "series" [leaf "pe" "20250925"; opt_mixed]].

Definition two_blocks : Element := doc [block_first; block_second].

(** Its clearing node and the first block, as nodes of the document. *)
Definition two_blocks_clearing : Node :=
  ([0; 0]%nat, node "clearingOrg" [block_first; block_second]).

Definition two_blocks_first : Node := ([0; 0; 0]%nat, block_first).

(** A document with both portfolios under their usual tags, and its
    clearing node. *)
Definition minimal_clearing : Node :=
  ([0; 0]%nat,
   node "clearingOrg" [phy "48000" [leaf "lotSize" "15"];
                       oop [node "series" [leaf "pe" "20250828"; opt1]]]).

(** The portfolios of [minimal] and of [no_series], as nodes. *)
Definition minimal_phy_pf : Node :=
  ([0; 0; 0]%nat, phy "48000" [leaf "lotSize" "15"]).

Definition minimal_phy_node : Node :=
  ([0; 0; 0; 1]%nat, node "phy" [leaf "p" "48000"; leaf "lotSize" "15"]).

Definition no_series_oop : Node := ([0; 0; 1]%nat, oop []).

Definition no_series_phy : Node := ([0; 0; 0]%nat, phy "48000" []).

Definition clearing_of (root : Element) : option Node :=
  point ← find "pointInTime" ([], root);
  find "clearingOrg" point.

End Samples.

(** ** Definitions used to state the properties *)

(** The coercion of one scenario text, following the specification: trim,
    strip the thousands separators, parse; on failure keep only the
    numeric, sign, point and exponent characters and parse again. *)
Definition spec_coerce_one (v : string) : option float :=
  let cleaned := PyStr.remove_commas (PyStr.strip v) in
  match float_of_str cleaned with
  | Some f => Some f
  | None => float_of_str (filtered cleaned)
  end.

(** The coerced array, following the specification: every text is coerced
    on its own and the failures are dropped. *)
Definition spec_coerce (raw_a_vals : list (option string)) : list float :=
  omap (fun v => v ≫= spec_coerce_one) raw_a_vals.

(** The scenario texts of a contract, when it has a risk array. *)
Definition scenario_texts (opt : Node) : option (list (option string)) :=
  (fun ra_node => map ntext (findall "a" ra_node)) <$> find "ra" opt.

(** A contract has extractable values when it has a risk array one of
    whose texts can be coerced. *)
Definition extractable (opt : Node) : bool :=
  match scenario_texts opt with
  | Some texts => existsb (fun v => bool_decide (v ≫= spec_coerce_one <> None)) texts
  | None => false
  end.

(** Eight digit characters. *)
Definition eight_digits (s : string) : bool :=
  (String.length s =? 8)%nat && forallb PyStr.isdigit_char (list_ascii_of_string s).

(** No two different rates of the list share a label. *)
Definition distinct_labels (rates : list float) : Prop :=
  forall r1 r2, In r1 rates -> In r2 rates -> rate_label r1 = rate_label r2 -> r1 = r2.

(** What an exposure amount and a total are, for one rate. *)
Definition exposure_of (notional : option float) (r : float) : pyval :=
  of_opt_float ((fun n => fmul n r) <$> notional).

Definition total_of (span_per_lot : float) (notional : option float) (r : float)
  : pyval :=
  of_opt_float (fadd span_per_lot <$> ((fun n => fmul n r) <$> notional)).

(** [float(0)], the right-hand side of the comparison [x >= 0]. *)
Definition fzero : float := S754_zero false.

(** The position of a float that is not a NaN in the order of the
    comparisons: sign class, then exponent, then mantissa. *)
Definition order_key (f : float) : option (Z * Z * Z) :=
  match f with
  | S754_nan => None
  | S754_infinity true => Some (-2, 0, 0)
  | S754_finite true m e => Some (-1, - e, Zneg m)
  | S754_zero _ => Some (0, 0, 0)
  | S754_finite false m e => Some (1, e, Zpos m)
  | S754_infinity false => Some (2, 0, 0)
  end.

Definition lex_compare (a b : Z * Z * Z) : comparison :=
  let '(a1, a2, a3) := a in
  let '(b1, b2, b3) := b in
  match a1 ?= b1 with
  | Eq => match a2 ?= b2 with
          | Eq => a3 ?= b3
          | c => c
          end
  | c => c
  end.

Definition lex_lt (a b : Z * Z * Z) : Prop :=
  let '(a1, a2, a3) := a in
  let '(b1, b2, b3) := b in
  a1 < b1 \/ (a1 = b1 /\ (a2 < b2 \/ (a2 = b2 /\ a3 < b3))).

(** The float of the literal [1234.5]. *)
Definition f1234_5 : float := Eval vm_compute in decimal_to_float false 12345 (-1).

(** ** The source loader *)

Module Loader.

(** [s.endswith(suffix)] *)
Fixpoint is_prefix (a b : list ascii) : bool :=
  match a, b with
  | [], _ => true
  | x :: a', y :: b' => Ascii.eqb x y && is_prefix a' b'
  | _ :: _, [] => false
  end.

Definition endswith (s suffix : string) : bool :=
  is_prefix (rev (list_ascii_of_string suffix)) (rev (list_ascii_of_string s)).

(** A regular file: its bytes, and the members [zipfile.ZipFile] finds in
    it, in archive order ([None] when it is not a zip archive).  A byte is
    the latin-1 character it decodes to, so [raw.decode("latin-1",
    errors="ignore")] is the identity.  Directories are outside the model. *)
Record file : Type := File {
  raw : string;
  members : option (list (string * string))
}.

(** The file system read by the loader: path to regular file. *)
Abbreviation filesystem := (gmap string file).

Inductive load_error : Type :=
| ZipNotFound         (* FileNotFoundError("ZIP not found: ...") *)
| BadZipFile          (* zipfile.BadZipFile *)
| NoSpnInZip          (* FileNotFoundError("No .spn file found inside ZIP") *)
| OpenFailed          (* FileNotFoundError raised by open *)
| InputNotFound.      (* FileNotFoundError("Input file not found ...") *)

(** [os.path.exists(path)] *)
Definition exists_path (fs : filesystem) (path : string) : bool :=
  bool_decide (fs !! path <> None).

(** [z.namelist()] *)
Definition namelist (ms : list (string * string)) : list string := map fst ms.

(** [z.read(name)]: the archive's name table maps a name to the last
    member added under it. *)
Definition zip_read (ms : list (string * string)) (name : string) : option string :=
  snd <$> List.find (fun m => String.eqb (fst m) name) (rev ms).

(** The branch for a path ending in [.zip]. *)
Definition read_zip (fs : filesystem) (path : string) : load_error + string :=
  match fs !! path with
  | None => inl ZipNotFound
  | Some f =>
      match members f with
      | None => inl BadZipFile
      | Some ms =>
          match List.find (fun n => endswith (PyStr.lower n) ".spn") (namelist ms) with
          | None => inl NoSpnInZip
          | Some spn_name =>
              match zip_read ms spn_name with
              | Some content => inr content
              | None => inl NoSpnInZip
              end
          end
      end
  end.

(** The branch for a path ending in [.spn]. *)
Definition read_plain (fs : filesystem) (path : string) : load_error + string :=
  match fs !! path with
  | None => inl OpenFailed
  | Some f => inr (raw f)
  end.

(** [read_spn_from_path]; the function calls itself, so the embedding
    counts the calls that are still allowed: [None] is running out of them. *)
Fixpoint read_spn_from_path (fuel : nat) (fs : filesystem) (path : string)
  : option (load_error + string) :=
  match fuel with
  | O => None
  | S fuel' =>
      if endswith (PyStr.lower path) ".zip" then Some (read_zip fs path)
      else if endswith (PyStr.lower path) ".spn" then Some (read_plain fs path)
      else if exists_path fs (path +:+ ".zip") then
        read_spn_from_path fuel' fs (path +:+ ".zip")
      else if exists_path fs (path +:+ ".spn") then
        read_spn_from_path fuel' fs (path +:+ ".spn")
      else Some (inl InputNotFound)
  end.

End Loader.

(** ** More definitions used to state the properties *)

(** The descendants contributed by the children [l] of a node at [p], the
    first of which has index [i]. *)
Fixpoint iter_children (p : path) (i : nat) (l : list Element) : list Node :=
  match l with
  | [] => []
  | c :: t => iter_at (p ++ [i]) c ++ iter_children p (S i) t
  end.

(** The element reached from [e] by following the child indices [q]. *)
Fixpoint node_at (e : Element) (q : path) : option Element :=
  match q with
  | [] => Some e
  | i :: q' => children e !! i ≫= fun c => node_at c q'
  end.

(** The letters of the symbol. *)
Definition symbol_letter (d : ascii) : bool :=
  existsb (Ascii.eqb d) (list_ascii_of_string "BANKIFTY").

(** For a character [c] and a letter [d]: [c] is upper-cased to [d] alone
    exactly when both have the same lower case, and otherwise the upper
    case of [c] does not even start with [d]. *)
Definition case_agrees (c d : ascii) : bool :=
  let same_lower := Ascii.eqb (PyStr.lower_char c) (PyStr.lower_char d) in
  match PyStr.upper_char c with
  | [u] => Bool.eqb (Ascii.eqb u d) same_lower
  | u :: _ => negb (Ascii.eqb u d) && negb same_lower
  | [] => false
  end.

(** A direct child that the scan takes as the options portfolio. *)
Definition scan_takes_options (p : Node) : bool :=
  is_symbol (PyStr.or_empty (findtext "pfCode" p)) &&
  bool_decide (find "series" p <> None).

(** A direct child that the scan takes as the underlying portfolio. *)
Definition scan_takes_underlying (p : Node) : bool :=
  is_symbol (PyStr.or_empty (findtext "pfCode" p)) &&
  negb (bool_decide (find "series" p <> None)) &&
  bool_decide (find "phy" p <> None).

(** The context of the contracts of series [s] in a run. *)
Definition run_context (phy : option Node) (s : Node) : context :=
  series_context (fst (read_underlying phy))
                 (with_fallback (snd (read_underlying phy))) EXPOSURE_RATES s.

(** The contracts of a list of series, in document order. *)
Definition all_contracts (series_nodes : list Node) : list Node :=
  flat_map (findall "opt") series_nodes.

Module MoreSamples.

Import Loader.

(** A file system with an archive and a raw file under the same stem. *)
Definition archive : file :=
  File "PK.." (Some [("readme.txt", "notes"); ("NSCCL.SPN", "<a/>"); ("x.spn", "<b/>")]%string).

Definition plain : file := File "<c/>" None.

Definition fs1 : filesystem :=
  <["day1.zip"%string := archive]> (<["day1.spn"%string := plain]> ∅).

(** A document whose only options block belongs to another symbol. *)
Definition other_symbol : Element :=
  Samples.doc
    [Samples.node "oopPf"
       [Samples.leaf "pfCode" "NIFTY";
        Samples.node "series" [Samples.leaf "pe" "20250828"; Samples.opt1]]].

Definition other_symbol_clearing : Node :=
  ([0; 0]%nat,
   Samples.node "clearingOrg"
     [Samples.node "oopPf"
        [Samples.leaf "pfCode" "NIFTY";
         Samples.node "series" [Samples.leaf "pe" "20250828"; Samples.opt1]]]).

(** Nodes of the sample documents. *)
Definition two_blocks_second : Node := ([0; 0; 1]%nat, Samples.block_second).

Definition minimal_oop : Node :=
  ([0; 0; 1]%nat,
   Samples.oop [Samples.node "series" [Samples.leaf "pe" "20250828"; Samples.opt1]]).

Definition no_underlying_oop : Node :=
  ([0; 0; 0]%nat,
   Samples.oop [Samples.node "series" [Samples.leaf "pe" "DEC25"; Samples.opt1]]).

(** A clearing node whose blocks carry the symbol under other tags. *)
Definition untagged_underlying : Element :=
  Samples.node "portfolio"
    [Samples.leaf "pfCode" " banknifty ";
     Samples.node "phy" [Samples.leaf "p" "48000"]].

Definition untagged_options : Element :=
  Samples.node "portfolio"
    [Samples.leaf "pfCode" "BankNifty";
     Samples.node "series" [Samples.leaf "pe" "20250828"; Samples.opt1]].

Definition untagged_clearing : Node :=
  ([0; 0]%nat, Samples.node "clearingOrg" [untagged_underlying; untagged_options]).

Definition untagged_underlying_node : Node := ([0; 0; 0]%nat, untagged_underlying).

(** A clearing node whose options block has the usual tag and whose
    underlying block has another one: the first block is
    [Samples.two_blocks_first], the options portfolio of the earlier
    strategies. *)
Definition half_tagged_clearing : Node :=
  ([0; 0]%nat,
   Samples.node "clearingOrg" [Samples.block_first; untagged_underlying]).

Definition half_tagged_underlying : Node := ([0; 0; 1]%nat, untagged_underlying).

(** A context whose only rate is an infinity. *)
Definition ctx_infinite_rate : context :=
  series_context None 35 [S754_infinity false] (Samples.at_root Samples.series1).

(** The rates 0.02265 and 0.02269 have the same label. *)
Definition rate_2269 : float := Eval vm_compute in decimal_to_float false 2269 (-5).

End MoreSamples.

(** * Properties *)

(** ** Loops that append *)

Section AppendLoops.
Context {A B : Type}.
Variable f : A -> option B.

(** A loop that appends the successes of [f] computes [omap f]. *)
Lemma fold_append_omap (l : list A) (acc : list B) :
  fold_left (fun acc x => match f x with Some y => acc ++ [y] | None => acc end) l acc
  = acc ++ omap f l.
Proof.
  revert acc. induction l as [|x l IH]; intros acc; simpl.
  - now rewrite app_nil_r.
  - rewrite IH. destruct (f x); simpl; [|reflexivity].
    now rewrite <- app_assoc.
Qed.

(** Elements on which [f] fails can be removed beforehand. *)
Lemma omap_filter_success (keep : A -> bool) (l : list A) :
  (forall x, keep x = false -> f x = None) ->
  omap f (List.filter keep l) = omap f l.
Proof.
  intros Hk. induction l as [|x l IH]; [reflexivity|].
  cbn. destruct (keep x) eqn:E; cbn.
  - now rewrite IH.
  - now rewrite (Hk x E).
Qed.
End AppendLoops.

(** ** Scenario value coercion *)

Lemma coerce_step_spec (a_vals : list float) (v : option string) :
  coerce_step a_vals v
  = match v ≫= spec_coerce_one with
    | Some f => a_vals ++ [f]
    | None => a_vals
    end.
Proof.
  destruct v as [v|]; simpl; [|reflexivity].
  unfold spec_coerce_one.
  destruct (float_of_str (PyStr.remove_commas (PyStr.strip v))); reflexivity.
Qed.

Lemma coerce_loop_spec (raw : list (option string)) (acc : list float) :
  fold_left coerce_step raw acc = acc ++ spec_coerce raw.
Proof.
  revert acc. induction raw as [|v raw IH]; intros acc.
  - cbn. now rewrite app_nil_r.
  - cbn [fold_left]. rewrite IH, coerce_step_spec. unfold spec_coerce. cbn.
    destruct (v ≫= spec_coerce_one); [|reflexivity].
    now rewrite <- app_assoc.
Qed.

Lemma coerce_values_spec (raw : list (option string)) :
  coerce_values raw = spec_coerce raw.
Proof. apply coerce_loop_spec. Qed.


Lemma spec_coerce_nil_iff (raw : list (option string)) :
  spec_coerce raw = [] <-> Forall (fun v => v ≫= spec_coerce_one = None) raw.
Proof.
  unfold spec_coerce. induction raw as [|v raw IH]; cbn.
  - split; [constructor | reflexivity].
  - destruct (v ≫= spec_coerce_one) eqn:E; split; intros H.
    + discriminate.
    + inversion H; subst. congruence.
    + constructor; [exact E | now apply IH].
    + inversion H; subst. now apply IH.
Qed.

(** ** Column names *)

Lemma string_app_cons (c : ascii) (a b : string) :
  (String c a +:+ b = String c (a +:+ b))%string.
Proof. reflexivity. Qed.

Lemma string_length_app (a b : string) :
  String.length (a +:+ b) = (String.length a + String.length b)%nat.
Proof.
  induction a as [|c a IH]; [reflexivity|].
  rewrite string_app_cons. simpl. now f_equal.
Qed.

Lemma string_app_inv_tail (a b t : string) : a +:+ t = b +:+ t -> a = b.
Proof.
  revert b. induction a as [|c a IH]; intros [|d b] H.
  - reflexivity.
  - apply (f_equal String.length) in H.
    rewrite !string_length_app in H. simpl in H. lia.
  - apply (f_equal String.length) in H.
    rewrite !string_length_app in H. simpl in H. lia.
  - rewrite !string_app_cons in H. injection H as -> H. f_equal. now apply IH.
Qed.

Lemma exposure_key_label (r : float) (k : string) :
  exposure_key r = Some k <->
  exists l, rate_label r = Some l /\ k = ("exposure_" +:+ l +:+ "_pct")%string.
Proof.
  unfold exposure_key. destruct (rate_label r) as [l|]; cbn; split.
  - intros [= <-]. now exists l.
  - intros (l' & [= <-] & ->). reflexivity.
  - discriminate.
  - intros (l' & [=] & _).
Qed.

Lemma total_key_label (r : float) (k : string) :
  total_key r = Some k <->
  exists l, rate_label r = Some l /\ k = ("total_" +:+ l +:+ "_pct")%string.
Proof.
  unfold total_key. destruct (rate_label r) as [l|]; cbn; split.
  - intros [= <-]. now exists l.
  - intros (l' & [= <-] & ->). reflexivity.
  - discriminate.
  - intros (l' & [=] & _).
Qed.

Lemma exposure_key_inj (r1 r2 : float) (k : string) :
  exposure_key r1 = Some k -> exposure_key r2 = Some k ->
  rate_label r1 = rate_label r2.
Proof.
  intros (l1 & H1 & E1)%exposure_key_label (l2 & H2 & E2)%exposure_key_label.
  rewrite H1, H2. f_equal. subst k.
  repeat (rewrite !string_app_cons in E2; injection E2 as E2).
  apply (string_app_inv_tail l1 l2 "_pct"). first [exact E2 | symmetry; exact E2].
Qed.

Lemma total_key_inj (r1 r2 : float) (k : string) :
  total_key r1 = Some k -> total_key r2 = Some k ->
  rate_label r1 = rate_label r2.
Proof.
  intros (l1 & H1 & E1)%total_key_label (l2 & H2 & E2)%total_key_label.
  rewrite H1, H2. f_equal. subst k.
  repeat (rewrite !string_app_cons in E2; injection E2 as E2).
  apply (string_app_inv_tail l1 l2 "_pct"). first [exact E2 | symmetry; exact E2].
Qed.

Lemma rate_columns_snoc rates r span notional :
  rate_columns (rates ++ [r]) span notional
  = rate_step span notional (rate_columns rates span notional) r.
Proof. unfold rate_columns. now rewrite fold_left_app. Qed.

(** Every entry of the two dicts comes from a rate of the list, and every
    rate of the list has its two entries. *)
Lemma rate_columns_entries rates span notional (E T : record) :
  rate_columns rates span notional = Some (E, T) ->
  (forall k v, E !! k = Some v ->
     exists r, In r rates /\ exposure_key r = Some k /\ v = exposure_of notional r) /\
  (forall k v, T !! k = Some v ->
     exists r, In r rates /\ total_key r = Some k /\ v = total_of span notional r) /\
  (forall r, In r rates ->
     exists ke kt, exposure_key r = Some ke /\ total_key r = Some kt /\
                   is_Some (E !! ke) /\ is_Some (T !! kt)).
Proof.
  revert E T. induction rates as [|r rates IH] using rev_ind; intros E T H.
  - injection H as <- <-. repeat split.
    + intros k v Hk. rewrite lookup_empty in Hk. discriminate.
    + intros k v Hk. rewrite lookup_empty in Hk. discriminate.
    + intros r [].
  - rewrite rate_columns_snoc in H.
    destruct (rate_columns rates span notional) as [[E0 T0]|]; [|discriminate].
    destruct (IH E0 T0 eq_refl) as (HE & HT & Hall).
    cbn in H.
    destruct (exposure_key r) as [ke|] eqn:Hke; [|discriminate].
    destruct (total_key r) as [kt|] eqn:Hkt; [|discriminate].
    cbn in H. injection H as <- <-. repeat split.
    + intros k v Hk. destruct (decide (ke = k)) as [->|Hne].
      * rewrite lookup_insert_eq in Hk. injection Hk as <-.
        exists r. split; [apply in_or_app; right; now left|]. now split.
      * rewrite lookup_insert_ne in Hk by exact Hne.
        destruct (HE k v Hk) as (r0 & Hin & ? & ?).
        exists r0. split; [apply in_or_app; now left|]. now split.
    + intros k v Hk. destruct (decide (kt = k)) as [->|Hne].
      * rewrite lookup_insert_eq in Hk. injection Hk as <-.
        exists r. split; [apply in_or_app; right; now left|]. now split.
      * rewrite lookup_insert_ne in Hk by exact Hne.
        destruct (HT k v Hk) as (r0 & Hin & ? & ?).
        exists r0. split; [apply in_or_app; now left|]. now split.
    + intros r0 [Hin|[<-|[]]]%in_app_or.
      * destruct (Hall r0 Hin) as (ke0 & kt0 & ? & ? & [x Hx] & [y Hy]).
        exists ke0, kt0. repeat split; try assumption.
        -- destruct (decide (ke = ke0)) as [->|Hne];
             [rewrite lookup_insert_eq | rewrite lookup_insert_ne by exact Hne]; eauto.
        -- destruct (decide (kt = kt0)) as [->|Hne];
             [rewrite lookup_insert_eq | rewrite lookup_insert_ne by exact Hne]; eauto.
      * exists ke, kt. repeat split; try assumption;
          rewrite lookup_insert_eq; eauto.
Qed.

(** With distinct labels, the entry of a rate holds that rate's amounts. *)
Lemma rate_columns_lookup rates span notional (E T : record) (r : float) :
  distinct_labels rates ->
  rate_columns rates span notional = Some (E, T) ->
  In r rates ->
  exists ke kt, exposure_key r = Some ke /\ total_key r = Some kt /\
    E !! ke = Some (exposure_of notional r) /\
    T !! kt = Some (total_of span notional r).
Proof.
  intros Hd H Hin.
  destruct (rate_columns_entries _ _ _ _ _ H) as (HE & HT & Hall).
  destruct (Hall r Hin) as (ke & kt & Hke & Hkt & [x Hx] & [y Hy]).
  exists ke, kt. repeat split; try assumption.
  - destruct (HE ke x Hx) as (r0 & Hin0 & Hk0 & ->).
    rewrite Hx. now rewrite (Hd r0 r Hin0 Hin (exposure_key_inj _ _ _ Hk0 Hke)).
  - destruct (HT kt y Hy) as (r0 & Hin0 & Hk0 & ->).
    rewrite Hy. now rewrite (Hd r0 r Hin0 Hin (total_key_inj _ _ _ Hk0 Hkt)).
Qed.

(** ** The shape of a derived record *)

Lemma derive_contract_inv (c : context) (opt : Node) (rec : record) :
  derive_contract c opt = Some rec ->
  exists ra_node worst span_per_lot notional E T typ strike premium delta,
    find "ra" opt = Some ra_node /\
    py_min (coerce_values (map ntext (findall "a" ra_node))) = Some worst /\
    fmul_int (fabs worst) (ctx_lot_size c) = Some span_per_lot /\
    notional_of c = Some notional /\
    rate_columns (ctx_rates c) span_per_lot notional = Some (E, T) /\
    rec = T ∪ (E ∪ base_record c typ strike premium delta (fabs worst)
                               span_per_lot notional).
Proof.
  unfold derive_contract. intros H.
  destruct (find "ra" opt) as [ra_node|]; [|discriminate]. cbn in H.
  destruct (py_min _) as [worst|] eqn:Hw; [|discriminate]. cbn in H.
  destruct (fmul_int _ _) as [span|] eqn:Hs; [|discriminate]. cbn in H.
  destruct (notional_of c) as [notional|] eqn:Hn; [|discriminate]. cbn in H.
  destruct (rate_columns _ _ _) as [[E T]|] eqn:Hr; [|discriminate]. cbn in H.
  injection H as <-.
  exists ra_node, worst, span, notional, E, T; eexists _, _, _, _.
  repeat split; try eassumption; reflexivity.
Qed.

(** The fixed columns are not overwritten by the two updates. *)
Lemma fixed_column_lookup rates span notional (E T b : record) (k : string) :
  rate_columns rates span notional = Some (E, T) ->
  In k base_fieldnames ->
  (T ∪ (E ∪ b)) !! k = b !! k.
Proof.
  intros H Hk.
  destruct (rate_columns_entries _ _ _ _ _ H) as (HE & HT & _).
  assert (T !! k = None) as HTk.
  { destruct (T !! k) as [v|] eqn:Ev; [|reflexivity].
    destruct (HT k v Ev) as (r & _ & (l & _ & ->)%total_key_label & _).
    cbn in Hk. intuition discriminate. }
  assert (E !! k = None) as HEk.
  { destruct (E !! k) as [v|] eqn:Ev; [|reflexivity].
    destruct (HE k v Ev) as (r & _ & (l & _ & ->)%exposure_key_label & _).
    cbn in Hk. intuition discriminate. }
  rewrite lookup_union_r by exact HTk. now rewrite lookup_union_r by exact HEk.
Qed.

(** The two columns of a rate hold that rate's amounts. *)
Lemma rate_column_lookup rates span notional (E T b : record) (r : float) :
  distinct_labels rates ->
  rate_columns rates span notional = Some (E, T) ->
  In r rates ->
  exists ke kt, exposure_key r = Some ke /\ total_key r = Some kt /\
    (T ∪ (E ∪ b)) !! ke = Some (exposure_of notional r) /\
    (T ∪ (E ∪ b)) !! kt = Some (total_of span notional r).
Proof.
  intros Hd H Hin.
  destruct (rate_columns_lookup _ _ _ _ _ r Hd H Hin) as (ke & kt & Hke & Hkt & HEk & HTk).
  exists ke, kt. repeat split; try assumption.
  - destruct (rate_columns_entries _ _ _ _ _ H) as (_ & HT & _).
    assert (T !! ke = None) as HTe.
    { destruct (T !! ke) as [v|] eqn:Ev; [|reflexivity].
      destruct (HT ke v Ev) as (r0 & _ & (l0 & _ & E0)%total_key_label & _).
      apply exposure_key_label in Hke as (l & _ & ->). discriminate. }
    rewrite lookup_union_r by exact HTe.
    now apply lookup_union_Some_l.
  - now apply lookup_union_Some_l.
Qed.

(** ** Every emitted record comes from a contract *)

Lemma contract_records_spec (c : context) (recs : list record) (opts : list Node) :
  contract_records c recs opts = recs ++ omap (derive_contract c) opts.
Proof. apply fold_append_omap. Qed.

Lemma build_records_spec spot lot_size rates (series_nodes : list Node) :
  build_records spot lot_size rates series_nodes
  = flat_map (fun s => omap (derive_contract (series_context spot lot_size rates s))
                            (findall "opt" s))
             series_nodes.
Proof.
  unfold build_records.
  rewrite <- (app_nil_l (flat_map _ _)). generalize (@nil record).
  induction series_nodes as [|s ss IH]; intros acc; simpl.
  - now rewrite app_nil_r.
  - rewrite IH. unfold series_records. rewrite contract_records_spec.
    now rewrite <- app_assoc.
Qed.

Lemma in_omap {A B} (f : A -> option B) (l : list A) (y : B) :
  In y (omap f l) <-> exists x, In x l /\ f x = Some y.
Proof.
  induction l as [|x l IH]; cbn.
  - split; [intros [] | intros (x & [] & _)].
  - destruct (f x) as [y'|] eqn:E; cbn; rewrite ?IH; split.
    + intros [<-|(x' & Hin & Hx')]; [exists x; auto | exists x'; auto].
    + intros (x' & [<-|Hin] & Hx'); [left; congruence | right; eauto].
    + intros (x' & Hin & Hx'). exists x'; auto.
    + intros (x' & [<-|Hin] & Hx'); [congruence | eauto].
Qed.

Lemma build_records_In spot lot_size rates (series_nodes : list Node) (rec : record) :
  In rec (build_records spot lot_size rates series_nodes) <->
  exists s opt, In s series_nodes /\ In opt (findall "opt" s) /\
    derive_contract (series_context spot lot_size rates s) opt = Some rec.
Proof.
  rewrite build_records_spec, in_flat_map. split.
  - intros (s & Hs & (opt & Ho & Hd)%in_omap). now exists s, opt.
  - intros (s & opt & Hs & Ho & Hd). exists s. split; [exact Hs|].
    apply in_omap. now exists opt.
Qed.

(** What a successful run is made of. *)
Lemma run_inv (root : Element) (recs : list record) :
  run root = inr recs ->
  exists oop phy series_nodes,
    locate root = inr (oop, phy) /\
    findall "series" oop = series_nodes /\ series_nodes <> [] /\
    recs = build_records (fst (read_underlying phy))
                         (with_fallback (snd (read_underlying phy)))
                         EXPOSURE_RATES series_nodes.
Proof.
  unfold run. destruct (locate root) as [e|[oop phy]]; [discriminate|].
  destruct (read_underlying phy) as [spot lot] eqn:Eu.
  destruct (findall "series" oop) as [|s ss] eqn:Es; [discriminate|].
  intros [= <-]. exists oop, phy, (s :: ss). rewrite Eu.
  repeat split; first [exact Es | discriminate].
Qed.

(** ** Expiry normalisation *)

Lemma length_list_ascii (s : string) :
  length (list_ascii_of_string s) = String.length s.
Proof. induction s as [|c s IH]; simpl; [reflexivity|now f_equal]. Qed.

(** The test of the source is the test for eight digit characters. *)
Lemma expiry_test_eight_digits (s : string) :
  PyStr.isdigit s && (String.length s =? 8)%nat = eight_digits s.
Proof.
  unfold PyStr.isdigit, eight_digits.
  destruct s as [|c s]; [reflexivity|].
  cbn [list_ascii_of_string]. apply andb_comm.
Qed.



(** ** Scenario values: coercion and skipped contracts *)

Lemma list_ascii_string_inv (l : list ascii) :
  list_ascii_of_string (string_of_list_ascii l) = l.
Proof. induction l as [|c l IH]; simpl; [reflexivity|now f_equal]. Qed.



Lemma extractable_false_iff (opt : Node) :
  extractable opt = false <->
  find "ra" opt = None \/
  exists ra_node, find "ra" opt = Some ra_node /\
    Forall (fun v => v ≫= spec_coerce_one = None) (map ntext (findall "a" ra_node)).
Proof.
  unfold extractable, scenario_texts.
  destruct (find "ra" opt) as [ra|]; cbn.
  - rewrite <- not_true_iff_false, existsb_exists. split.
    + intros H. right. exists ra. split; [reflexivity|].
      apply Forall_forall. intros v Hv%list_elem_of_In.
      destruct (v ≫= spec_coerce_one) eqn:E; [|reflexivity].
      exfalso. apply H. exists v. split; [exact Hv|].
      apply bool_decide_eq_true. congruence.
    + intros [[=]|(ra' & [= <-] & H)] (v & Hv & Hd).
      apply bool_decide_eq_true in Hd. apply Hd.
      apply (proj1 (Forall_forall _ _) H). now apply list_elem_of_In.
  - split; [now left | reflexivity].
Qed.

Lemma unextractable_skipped (c : context) (opt : Node) :
  extractable opt = false -> derive_contract c opt = None.
Proof.
  intros [H|(ra & H & Hall)]%extractable_false_iff; unfold derive_contract; rewrite H.
  - reflexivity.
  - cbn. apply spec_coerce_nil_iff in Hall. rewrite coerce_values_spec, Hall.
    reflexivity.
Qed.

Lemma base_record_risk c typ strike premium delta w sp n :
  base_record c typ strike premium delta w sp n !! "worst_RA_per_unit"
    = Some (PyFloat w) /\
  base_record c typ strike premium delta w sp n !! "span_per_lot"
    = Some (PyFloat sp).
Proof. split; reflexivity. Qed.

(** C4: a contract without extractable risk-array values (no [ra] child,
    or every scenario text failing coercion) yields no record: the records
    of a series are those of its extractable contracts, and every record
    that is emitted carries float values in its two risk columns. *)
Theorem unextractable_contracts_never_emitted (c : context)
    (recs : list record) (opts : list Node) :
  (forall opt,
     find "ra" opt = None \/
     (exists ra_node, find "ra" opt = Some ra_node /\
        Forall (fun v => v ≫= spec_coerce_one = None)
               (map ntext (findall "a" ra_node))) ->
     derive_contract c opt = None) /\
  contract_records c recs opts
    = contract_records c recs (List.filter extractable opts) /\
  (forall opt rec, derive_contract c opt = Some rec ->
     extractable opt = true /\
     exists w sp, rec !! "worst_RA_per_unit" = Some (PyFloat w) /\
                  rec !! "span_per_lot" = Some (PyFloat sp)).
Proof.
  split; [|split].
  - intros opt H. now apply unextractable_skipped, extractable_false_iff.
  - rewrite !contract_records_spec. f_equal. symmetry.
    apply omap_filter_success. intros opt. apply unextractable_skipped.
  - intros opt rec H. split.
    + destruct (extractable opt) eqn:E; [reflexivity|].
      rewrite (unextractable_skipped c opt E) in H. discriminate.
    + apply derive_contract_inv in H
        as (ra & w & sp & n & E & T & typ & st & pr & de & _ & _ & _ & _ & Hr & ->).
      exists (fabs w), sp.
      rewrite !(fixed_column_lookup _ _ _ _ _ _ _ Hr) by (cbn; tauto).
      apply base_record_risk.
Qed.

(** ** Lot size *)

Lemma scan_lot_cases (cands : list string) :
  scan_lot cands = None \/ scan_lot cands = Some 35.
Proof.
  induction cands as [|cand rest IH]; [now left|].
  cbn [scan_lot]. destruct (String.eqb cand ""); [exact IH|].
  destruct (float_of_str cand) as [f|]; [|exact IH].
  destruct (int_of_float f) as [val|]; [|exact IH].
  destruct (0 <? val); [now right | exact IH].
Qed.

Lemma lot_size_is_35 (phy : option Node) :
  with_fallback (snd (read_underlying phy)) = 35.
Proof.
  unfold read_underlying.
  destruct phy as [pf|]; [|reflexivity].
  destruct (find "phy" pf) as [phy_node|]; [|reflexivity].
  cbn [snd]. now destruct (scan_lot_cases (lot_candidates phy_node)) as [-> | ->].
Qed.

Lemma lot_candidates_present (phy_node : Node) (t : string) :
  In t LOT_TAGS -> is_Some (findtext t phy_node) -> lot_candidates phy_node <> [].
Proof.
  intros Hin [x Hx] Hnil.
  assert (In x (lot_candidates phy_node)) as Hc.
  { apply in_omap. now exists t. }
  rewrite Hnil in Hc. destruct Hc.
Qed.

(** C5: whenever an alias field of the lot size is present in the
    underlying entry, the lot size used is the constant 35, whatever the
    alias fields hold: a candidate that converts to a positive integer
    [val] ends the scan with 35, not with [val], and a scan that finds no
    such candidate leaves the fallback, which is 35 as well. *)
Theorem lot_alias_value_discarded (pf phy_node : Node) (t : string) :
  find "phy" pf = Some phy_node ->
  In t LOT_TAGS ->
  is_Some (findtext t phy_node) ->
  lot_candidates phy_node <> [] /\
  with_fallback (snd (read_underlying (Some pf))) = 35 /\
  (forall cand rest f val,
     cand <> ""%string -> float_of_str cand = Some f ->
     int_of_float f = Some val -> 0 < val ->
     scan_lot (cand :: rest) = Some 35).
Proof.
  intros Hphy Hin Hsome. split; [|split].
  - exact (lot_candidates_present phy_node t Hin Hsome).
  - apply lot_size_is_35.
  - intros cand rest f val Hne Hf Hi Hpos. cbn [scan_lot].
    destruct (String.eqb_spec cand ""); [contradiction|].
    rewrite Hf, Hi. now apply Z.ltb_lt in Hpos as ->.
Qed.

Lemma base_record_lot c typ strike premium delta w sp n :
  base_record c typ strike premium delta w sp n !! "lot_size"
    = Some (PyInt (ctx_lot_size c)).
Proof. reflexivity. Qed.

(** C6: in every emitted record the [lot_size] column holds an integer,
    never [None], and that integer is positive: it is the lot inferred
    from the document or the fallback constant. *)
Theorem lot_size_positive (root : Element) (recs : list record) (rec : record) :
  run root = inr recs ->
  In rec recs ->
  exists (n : Z) (phy : option Node),
    rec !! "lot_size" = Some (PyInt n) /\ 0 < n /\
    (snd (read_underlying phy) = Some n \/
     (snd (read_underlying phy) = None /\ n = FALLBACK_LOT)).
Proof.
  intros (oop & phy & ss & _ & _ & _ & ->)%run_inv
         (s & opt & _ & _ & H)%build_records_In.
  apply derive_contract_inv in H
    as (ra & w & sp & n & E & T & typ & st & pr & de & _ & _ & _ & _ & Hr & ->).
  exists (with_fallback (snd (read_underlying phy))), phy.
  split; [|split].
  - rewrite (fixed_column_lookup _ _ _ _ _ _ _ Hr) by (cbn; tauto).
    apply base_record_lot.
  - now rewrite lot_size_is_35.
  - destruct (snd (read_underlying phy));
      [left; reflexivity | right; split; reflexivity].
Qed.

(** ** The series check *)

(** C10: when the resolved options portfolio has no direct [series]
    child the run ends with the fatal error, not with an empty record
    list; a series without contracts is no error, and a document whose
    only series is empty yields the empty record list. *)
Theorem no_series_is_fatal (root : Element) (oop : Node) (phy : option Node) :
  locate root = inr (oop, phy) ->
  findall "series" oop = [] ->
  run root = inl NoSeriesNodes /\
  run Samples.empty_series = inr [].
Proof.
  intros Hl Hs. split; [|vm_compute; reflexivity].
  unfold run. rewrite Hl. destruct (read_underlying phy). now rewrite Hs.
Qed.

(** ** Column names and the header *)

Lemma fieldnames_snoc (rates : list float) (r : float) :
  fieldnames (rates ++ [r]) = fieldnames_step (fieldnames rates) r.
Proof. unfold fieldnames. now rewrite fold_left_app. Qed.

(** The header holds the fixed columns and the two columns of each rate. *)
Lemma fieldnames_elem (rates : list float) (names : list string) :
  fieldnames rates = Some names ->
  forall k, In k names <->
    In k base_fieldnames \/
    exists r, In r rates /\ (exposure_key r = Some k \/ total_key r = Some k).
Proof.
  revert names. induction rates as [|r rates IH] using rev_ind; intros names H k.
  - injection H as <-. split; [now left|].
    intros [Hb|(r & [] & _)]. exact Hb.
  - rewrite fieldnames_snoc in H.
    destruct (fieldnames rates) as [names0|]; [|discriminate]. cbn in H.
    destruct (exposure_key r) as [ke|] eqn:Hke; [|discriminate].
    destruct (total_key r) as [kt|] eqn:Hkt; [|discriminate].
    cbn in H. injection H as <-.
    rewrite in_app_iff, (IH names0 eq_refl k). cbn [In]. split.
    + intros [[Hb|(r0 & Hin & Hk)]|[<-|[<-|[]]]].
      * now left.
      * right. exists r0. split; [apply in_or_app; now left | exact Hk].
      * right. exists r. split; [apply in_or_app; right; now left | now left].
      * right. exists r. split; [apply in_or_app; right; now left | now right].
    + intros [Hb|(r0 & [Hin|[<-|[]]]%in_app_or & Hk)].
      * left. now left.
      * left. right. now exists r0.
      * right. destruct Hk as [Hk|Hk]; rewrite Hk in *.
        -- left. congruence.
        -- right. left. congruence.
Qed.

Lemma base_record_keys c typ strike premium delta w sp n (k : string) :
  is_Some (base_record c typ strike premium delta w sp n !! k) <->
  In k base_fieldnames.
Proof.
  unfold base_record. rewrite !lookup_insert_is_Some', lookup_empty.
  cbn [In base_fieldnames]. split.
  - intros H. repeat (destruct H as [H|H]; [tauto|]).
    now apply is_Some_None in H.
  - intros H. tauto.
Qed.

(** The columns of a derived record are those of the header. *)
Lemma derived_record_keys (c : context) (opt : Node) (rec : record) (k : string) :
  derive_contract c opt = Some rec ->
  is_Some (rec !! k) <->
    In k base_fieldnames \/
    exists r, In r (ctx_rates c) /\ (exposure_key r = Some k \/ total_key r = Some k).
Proof.
  intros H. apply derive_contract_inv in H
    as (ra & w & sp & n & E & T & typ & st & pr & de & _ & _ & _ & _ & Hr & ->).
  destruct (rate_columns_entries _ _ _ _ _ Hr) as (HE & HT & Hall).
  rewrite !lookup_union_is_Some, base_record_keys. split.
  - intros [[v Hv]|[[v Hv]|Hb]].
    + destruct (HT k v Hv) as (r & Hin & Hk & _). right. exists r. auto.
    + destruct (HE k v Hv) as (r & Hin & Hk & _). right. exists r. auto.
    + now left.
  - intros [Hb|(r & Hin & Hk)]; [right; now right|].
    destruct (Hall r Hin) as (ke & kt & Hke & Hkt & HEk & HTk).
    destruct Hk as [Hk|Hk].
    + right. left. congruence.
    + left. congruence.
Qed.

Lemma int_of_float_truncates (s : bool) (m : positive) (e n : Z) :
  e < 0 ->
  int_of_float (S754_finite s m e) = Some n ->
  Z.abs n * 2 ^ (- e) <= Zpos m < (Z.abs n + 1) * 2 ^ (- e) /\
  (if s then n <= 0 else 0 <= n).
Proof.
  intros He H. cbn in H.
  destruct (0 <=? e) eqn:E; [apply Z.leb_le in E; lia|].
  injection H as <-.
  assert (0 < 2 ^ (- e)) as Hp by (apply Z.pow_pos_nonneg; lia).
  pose proof (Z.div_pos (Zpos m) (2 ^ (- e)) ltac:(lia) Hp) as Hq.
  pose proof (Z.mul_div_le (Zpos m) (2 ^ (- e)) Hp) as Hlo.
  pose proof (Z.mul_succ_div_gt (Zpos m) (2 ^ (- e)) Hp) as Hhi.
  destruct s.
  - rewrite Z.abs_opp, Z.abs_eq by exact Hq. split; [split|]; lia.
  - rewrite Z.abs_eq by exact Hq. split; [split|]; lia.
Qed.

(** C8, as the code has it: the two column names of a rate are built from
    [int(rate * 10000) / 100], the percentage truncated toward zero to two
    decimals, printed with four decimals: 0.02265 gives "2.2600" and 0.02
    gives "2.0000".  The configured rates have distinct labels, the header
    has no repeated name, and the columns of every emitted record are
    exactly the names of the header. *)
Theorem column_names_truncated_percentage :
  (forall r l, rate_label r = Some l <->
     exists x n q, fmul_int r 10000 = Some x /\ int_of_float x = Some n /\
                   int_truediv n 100 = Some q /\ l = format_4f q) /\
  (fmul_int rate_2265 10000 ≫= int_of_float) = Some 226 /\
  (fmul_int rate_2 10000 ≫= int_of_float) = Some 200 /\
  fieldnames EXPOSURE_RATES
    = Some (base_fieldnames ++
            ["exposure_2.0000_pct"; "total_2.0000_pct";
             "exposure_2.2600_pct"; "total_2.2600_pct"]%string) /\
  distinct_labels EXPOSURE_RATES /\
  (forall names, fieldnames EXPOSURE_RATES = Some names -> NoDup names) /\
  (forall root recs rec names,
     run root = inr recs -> In rec recs ->
     fieldnames EXPOSURE_RATES = Some names ->
     forall k, is_Some (rec !! k) <-> In k names).
Proof.
  split; [|split; [|split; [|split; [|split; [|split]]]]].
  - intros r l. unfold rate_label. split.
    + intros H.
      destruct (fmul_int r 10000) as [x|] eqn:Hx; [|discriminate]. cbn in H.
      destruct (int_of_float x) as [n|] eqn:Hn; [|discriminate]. cbn in H.
      destruct (int_truediv n 100) as [q|] eqn:Hq; [|discriminate]. cbn in H.
      injection H as <-. exists x, n, q. auto.
    + intros (x & n & q & -> & Hn & Hq & ->). cbn. rewrite Hn. cbn.
      rewrite Hq. reflexivity.
  - vm_compute. reflexivity.
  - vm_compute. reflexivity.
  - vm_compute. reflexivity.
  - intros r1 r2 [<-|[<-|[]]] [<-|[<-|[]]] H; try reflexivity;
      vm_compute in H; discriminate.
  - intros names H. vm_compute in H. injection H as <-.
    apply (bool_decide_unpack _). vm_compute. exact I.
  - intros root recs rec names
      (oop & phy & ss & _ & _ & _ & ->)%run_inv
      (s & opt & _ & _ & H)%build_records_In Hn k.
    rewrite (derived_record_keys _ _ _ k H). cbn [ctx_rates series_context].
    symmetry. apply (fieldnames_elem _ _ Hn).
Qed.

(** C8, as stated, fails: the label of the rate 0.02265 does not contain
    "2.27"; the name of its exposure column is "exposure_2.2600_pct". *)
Lemma label_of_2265_is_not_rounded :
  ~ (exists k, exposure_key rate_2265 = Some k /\ PyStr.contains "2.27" k = true).
Proof.
  intros (k & Hk & Hc). vm_compute in Hk. injection Hk as <-.
  vm_compute in Hc. discriminate.
Qed.

(** ** The order of float comparisons *)

Lemma lex_compare_spec (a b : Z * Z * Z) :
  match lex_compare a b with
  | Lt => lex_lt a b
  | Eq => a = b
  | Gt => lex_lt b a
  end.
Proof.
  destruct a as [[a1 a2] a3], b as [[b1 b2] b3]. unfold lex_compare, lex_lt.
  destruct (Z.compare_spec a1 b1); [|lia|lia].
  destruct (Z.compare_spec a2 b2); [|lia|lia].
  destruct (Z.compare_spec a3 b3); [congruence|lia|lia].
Qed.

Lemma lex_lt_irrefl (a : Z * Z * Z) : ~ lex_lt a a.
Proof. destruct a as [[a1 a2] a3]. unfold lex_lt. lia. Qed.

Lemma lex_lt_trans (a b c : Z * Z * Z) : lex_lt a b -> lex_lt b c -> lex_lt a c.
Proof.
  destruct a as [[a1 a2] a3], b as [[b1 b2] b3], c as [[c1 c2] c3].
  unfold lex_lt. lia.
Qed.

Lemma lex_lt_asym (a b : Z * Z * Z) : lex_lt a b -> lex_lt b a -> False.
Proof. intros H1 H2. exact (lex_lt_irrefl a (lex_lt_trans _ _ _ H1 H2)). Qed.

(** The comparison of two floats is the comparison of their keys. *)
Lemma SFcompare_key (x y : float) :
  SFcompare x y
  = match order_key x, order_key y with
    | Some a, Some b => Some (lex_compare a b)
    | _, _ => None
    end.
Proof.
  destruct x as [[]|[]| |[] m1 e1], y as [[]|[]| |[] m2 e2]; try reflexivity;
    cbn [SFcompare order_key lex_compare].
  change (-1 ?= -1) with Eq. cbn match.
  rewrite Z.compare_opp, (Z.compare_antisym e1 e2).
  destruct (e1 ?= e2); reflexivity.
Qed.

Lemma flt_key (x y : float) :
  flt x y = true <-> exists a b, order_key x = Some a /\ order_key y = Some b /\ lex_lt a b.
Proof.
  unfold flt, SFltb. rewrite SFcompare_key.
  destruct (order_key x) as [a|], (order_key y) as [b|];
    try (split; [discriminate | intros (? & ? & ? & ? & _); discriminate]).
  pose proof (lex_compare_spec a b) as H.
  destruct (lex_compare a b); split; try discriminate.
  - intros (a' & b' & [= <-] & [= <-] & Hlt). subst b. now apply lex_lt_irrefl in Hlt.
  - intros _. now exists a, b.
  - reflexivity.
  - intros (a' & b' & [= <-] & [= <-] & Hlt). exfalso. exact (lex_lt_asym _ _ H Hlt).
Qed.

Lemma fle_key (x y : float) :
  fle x y = true <->
  exists a b, order_key x = Some a /\ order_key y = Some b /\ (lex_lt a b \/ a = b).
Proof.
  unfold fle, SFleb. rewrite SFcompare_key.
  destruct (order_key x) as [a|], (order_key y) as [b|];
    try (split; [discriminate | intros (? & ? & ? & ? & _); discriminate]).
  pose proof (lex_compare_spec a b) as H.
  destruct (lex_compare a b); split; try discriminate.
  - intros _. exists a, b. auto.
  - reflexivity.
  - intros _. exists a, b. auto.
  - reflexivity.
  - intros (a' & b' & [= <-] & [= <-] & [Hlt| ->]); exfalso.
    + exact (lex_lt_asym _ _ H Hlt).
    + exact (lex_lt_irrefl _ H).
Qed.

Lemma order_key_not_nan (x : float) : is_nan x = false -> exists a, order_key x = Some a.
Proof. destruct x as [[]|[]| |[] m e]; intros H; try discriminate; eauto. Qed.

Lemma fle_refl (x : float) : is_nan x = false -> fle x x = true.
Proof.
  intros (a & Ha)%order_key_not_nan. apply fle_key. exists a, a. auto.
Qed.

(** Without NaN the order is total: what is not smaller is at least as large. *)
Lemma flt_false_fle (x m : float) :
  is_nan x = false -> is_nan m = false -> flt x m = false -> fle m x = true.
Proof.
  intros (a & Ha)%order_key_not_nan (b & Hb)%order_key_not_nan H.
  apply fle_key. exists b, a. repeat split; try assumption.
  pose proof (lex_compare_spec a b) as Hc.
  destruct (lex_compare a b) eqn:E; auto.
  exfalso. apply not_true_iff_false in H. apply H, flt_key. now exists a, b.
Qed.

Lemma fle_trans (x y z : float) : fle x y = true -> fle y z = true -> fle x z = true.
Proof.
  intros (a & b & Ha & Hb & H1)%fle_key (b' & c & Hb' & Hc & H2)%fle_key.
  rewrite Hb in Hb'. injection Hb' as <-.
  apply fle_key. exists a, c. repeat split; try assumption.
  destruct H1 as [H1| ->], H2 as [H2| <-]; auto.
  left. exact (lex_lt_trans _ _ _ H1 H2).
Qed.

Lemma flt_fle (x y : float) : flt x y = true -> fle x y = true.
Proof.
  intros (a & b & Ha & Hb & H)%flt_key. apply fle_key. exists a, b. auto.
Qed.

Lemma fabs_nonneg (x : float) : is_nan x = false -> fle fzero (fabs x) = true.
Proof. destruct x as [[]|[]| |[] m e]; intros H; try discriminate; reflexivity. Qed.

(** Python's [min] on floats without NaN: an element of the sequence that
    is below all the others. *)
Lemma min_from_spec (l : list float) (m : float) :
  is_nan m = false ->
  Forall (fun x => is_nan x = false) l ->
  In (min_from m l) (m :: l) /\
  forall y, In y (m :: l) -> fle (min_from m l) y = true.
Proof.
  intros Hm Hl. revert m Hm.
  induction Hl as [|x l Hx _ IH]; intros m Hm; cbn [min_from].
  - split; [now left|]. intros y [<-|[]]. now apply fle_refl.
  - destruct (flt x m) eqn:E.
    + destruct (IH x Hx) as [Hin Hle]. split.
      * right. exact Hin.
      * intros y [<-|Hy]; [|now apply Hle].
        apply (fle_trans _ x); [apply Hle; now left | now apply flt_fle].
    + destruct (IH m Hm) as [Hin Hle]. split.
      * destruct Hin as [<-|Hin]; [now left | right; now right].
      * intros y [<-|[<-|Hy]].
        -- apply Hle. now left.
        -- apply (fle_trans _ m); [apply Hle; now left | now apply flt_false_fle].
        -- apply Hle. now right.
Qed.

Lemma py_min_spec (l : list float) (worst : float) :
  py_min l = Some worst ->
  l <> [] /\
  (Forall (fun x => is_nan x = false) l ->
   In worst l /\ (forall y, In y l -> fle worst y = true) /\
   fle fzero (fabs worst) = true).
Proof.
  destruct l as [|m l]; [discriminate|]. intros [= <-].
  split; [discriminate|]. intros H. inversion H as [|? ? Hm Hl]; subst.
  destruct (min_from_spec l m Hm Hl) as [Hin Hle].
  split; [exact Hin|]. split; [exact Hle|].
  apply fabs_nonneg. apply (proj1 (List.Forall_forall _ _) H). exact Hin.
Qed.

(** ** Worst loss and margin arithmetic *)

(** C2, as the code has it: the worst-per-unit value of an emitted record
    is the absolute value of Python's [min] of the coerced scenario values,
    of which there is at least one.  When none of the values is a NaN, that
    minimum is an element of the array below all the others and the
    worst-per-unit value is greater than or equal to zero. *)
Theorem worst_per_unit_abs_min (c : context) (opt : Node) (rec : record) :
  derive_contract c opt = Some rec ->
  exists ra_node worst,
    find "ra" opt = Some ra_node /\
    let a_vals := coerce_values (map ntext (findall "a" ra_node)) in
    a_vals <> [] /\
    py_min a_vals = Some worst /\
    rec !! "worst_RA_per_unit" = Some (PyFloat (fabs worst)) /\
    (Forall (fun x => is_nan x = false) a_vals ->
     In worst a_vals /\
     (forall x, In x a_vals -> fle worst x = true) /\
     fle fzero (fabs worst) = true).
Proof.
  intros H. apply derive_contract_inv in H
    as (ra & w & sp & n & E & T & typ & st & pr & de & Hra & Hw & _ & _ & Hr & ->).
  exists ra, w. split; [exact Hra|]. cbn zeta.
  destruct (py_min_spec _ _ Hw) as [Hne Hall].
  split; [exact Hne|]. split; [exact Hw|]. split; [|exact Hall].
  rewrite (fixed_column_lookup _ _ _ _ _ _ _ Hr) by (cbn; tauto).
  apply base_record_risk.
Qed.

(** C2, as stated, fails: the scenario text "nan" is coerced without
    failure, the record is emitted, and its worst-per-unit value is a NaN,
    which is not greater than or equal to zero. *)
Lemma worst_per_unit_can_be_nan :
  ~ (forall (c : context) (opt : Node) (rec : record) (w : float),
       derive_contract c opt = Some rec ->
       rec !! "worst_RA_per_unit" = Some (PyFloat w) ->
       fle fzero w = true).
Proof.
  intros H.
  assert ((derive_contract Samples.ctx1 (Samples.at_root Samples.opt_nan)
             ≫= lookup "worst_RA_per_unit"%string) = Some (PyFloat S754_nan))
    as Hw by (vm_compute; reflexivity).
  destruct (derive_contract Samples.ctx1 (Samples.at_root Samples.opt_nan))
    as [rec|] eqn:E; [|discriminate Hw].
  change (rec !! "worst_RA_per_unit" = Some (PyFloat S754_nan)) in Hw.
  apply (H _ _ rec S754_nan E) in Hw. discriminate Hw.
Qed.

Lemma fmul_int_inv (x : float) (n : Z) (y : float) :
  fmul_int x n = Some y ->
  exists nf, float_of_int n = Some nf /\ y = fmul x nf.
Proof.
  unfold fmul_int. destruct (float_of_int n) as [nf|]; [|discriminate].
  intros [= <-]. now exists nf.
Qed.

Lemma base_record_spot c typ strike premium delta w sp n :
  base_record c typ strike premium delta w sp n !! "spot_from_rpf"
    = Some (of_opt_float (ctx_spot c)) /\
  base_record c typ strike premium delta w sp n !! "notional"
    = Some (of_opt_float n).
Proof. split; reflexivity. Qed.

Lemma configured_labels_distinct : distinct_labels EXPOSURE_RATES.
Proof.
  intros r1 r2 [<-|[<-|[]]] [<-|[<-|[]]] H; try reflexivity;
    vm_compute in H; discriminate.
Qed.

(** C1: in every emitted record the per-lot margin is the worst-per-unit
    value times the lot size.  When the spot is known, the notional is the
    spot times the lot size and, for every configured rate, the exposure
    column holds the notional times the rate and the total column the
    per-lot margin plus that exposure; when the spot is unknown, the
    notional and all exposure and total columns are [None]. *)
Theorem margin_arithmetic (root : Element) (recs : list record) (rec : record) :
  run root = inr recs ->
  In rec recs ->
  exists (worst : float) (lot : Z) (lotf : float),
    rec !! "worst_RA_per_unit" = Some (PyFloat worst) /\
    rec !! "lot_size" = Some (PyInt lot) /\
    float_of_int lot = Some lotf /\
    rec !! "span_per_lot" = Some (PyFloat (fmul worst lotf)) /\
    ((exists spot,
        rec !! "spot_from_rpf" = Some (PyFloat spot) /\
        rec !! "notional" = Some (PyFloat (fmul spot lotf)) /\
        forall r, In r EXPOSURE_RATES ->
          exists ke kt, exposure_key r = Some ke /\ total_key r = Some kt /\
            rec !! ke = Some (PyFloat (fmul (fmul spot lotf) r)) /\
            rec !! kt = Some (PyFloat (fadd (fmul worst lotf)
                                            (fmul (fmul spot lotf) r)))) \/
     (rec !! "spot_from_rpf" = Some PyNone /\
      rec !! "notional" = Some PyNone /\
      forall r, In r EXPOSURE_RATES ->
        exists ke kt, exposure_key r = Some ke /\ total_key r = Some kt /\
          rec !! ke = Some PyNone /\ rec !! kt = Some PyNone)).
Proof.
  intros (oop & phy & ss & _ & _ & _ & ->)%run_inv
         (s & opt & _ & _ & H)%build_records_In.
  apply derive_contract_inv in H
    as (ra & w & sp & n & E & T & typ & st & pr & de & _ & _ & Hsp & Hn & Hr & ->).
  cbn [ctx_lot_size ctx_rates series_context] in Hsp, Hr.
  apply fmul_int_inv in Hsp as (lotf & Hlot & ->).
  exists (fabs w), (with_fallback (snd (read_underlying phy))), lotf.
  rewrite !(fixed_column_lookup _ _ _ _ _ _ _ Hr) by (cbn; tauto).
  split; [apply base_record_risk|].
  split; [apply base_record_lot|].
  split; [exact Hlot|].
  split; [apply base_record_risk|].
  unfold notional_of in Hn. cbn [ctx_spot ctx_lot_size series_context] in Hn.
  destruct (base_record_spot
              (series_context (fst (read_underlying phy))
                 (with_fallback (snd (read_underlying phy))) EXPOSURE_RATES s)
              typ st pr de (fabs w) (fmul (fabs w) lotf) n) as [Hspot Hnot].
  rewrite Hspot, Hnot. cbn [ctx_spot series_context].
  destruct (fst (read_underlying phy)) as [spot|].
  - left. exists spot.
    unfold fmul_int in Hn. rewrite Hlot in Hn. cbn in Hn. injection Hn as <-.
    split; [reflexivity|]. split; [reflexivity|].
    intros r Hin.
    destruct (rate_column_lookup _ _ _ E T
                (base_record
                   (series_context (Some spot)
                      (with_fallback (snd (read_underlying phy))) EXPOSURE_RATES s)
                   typ st pr de (fabs w) (fmul (fabs w) lotf)
                   (Some (fmul spot lotf)))
                r configured_labels_distinct Hr Hin)
      as (ke & kt & Hke & Hkt & He & Ht).
    exists ke, kt. auto.
  - right. injection Hn as <-.
    split; [reflexivity|]. split; [reflexivity|].
    intros r Hin.
    destruct (rate_column_lookup _ _ _ E T
                (base_record
                   (series_context None
                      (with_fallback (snd (read_underlying phy))) EXPOSURE_RATES s)
                   typ st pr de (fabs w) (fmul (fabs w) lotf) None)
                r configured_labels_distinct Hr Hin)
      as (ke & kt & Hke & Hkt & He & Ht).
    exists ke, kt. auto.
Qed.

(** ** The properties on the sample documents *)

(** The example of the specification: scenario values -120.0, 50.0,
    -300.5 and 75.0, lot size 35, spot 48000 and rate 0.02 give the worst
    value 300.5, the margin 10517.5, the notional 1680000, the exposure
    33600 and the total 44117.5. *)
Example minimal_document_figures :
  map (fun rec : record =>
         map (fun k => rec !! k)
             ["worst_RA_per_unit"; "span_per_lot"; "notional";
              "exposure_2.0000_pct"; "total_2.0000_pct"]%string)
      (match run Samples.minimal with inr recs => recs | inl _ => [] end)
  = [map (fun d => PyFloat <$> float_of_str d)
         ["300.5"; "10517.5"; "1680000"; "33600"; "44117.5"]%string].
Proof. vm_compute. reflexivity. Qed.

(** The constants of the source are the floats of its literals. *)
Example configured_rates_are_the_literals :
  float_of_str "0.02" = Some rate_2 /\
  float_of_str "0.02265" = Some rate_2265 /\
  float_of_str "1234.5" = Some f1234_5.
Proof. repeat split; vm_compute; reflexivity. Qed.

(** [Samples.minimal] yields one record, and [Samples.opt1] is derived. *)
Lemma minimal_one_record :
  match run Samples.minimal with
  | inr recs => length recs
  | inl _ => 0%nat
  end = 1%nat.
Proof. vm_compute. reflexivity. Qed.

(** The margin arithmetic on the record of [Samples.minimal]. *)
Lemma margin_arithmetic_witness :
  exists rec,
    run Samples.minimal = inr [rec] /\
    exists worst lot lotf,
      rec !! "worst_RA_per_unit" = Some (PyFloat worst) /\
      rec !! "lot_size" = Some (PyInt lot) /\
      float_of_int lot = Some lotf /\
      rec !! "span_per_lot" = Some (PyFloat (fmul worst lotf)).
Proof.
  pose proof minimal_one_record as Hlen.
  destruct (run Samples.minimal) as [e|[|rec [|? ?]]] eqn:E; try discriminate Hlen.
  exists rec. split; [reflexivity|].
  destruct (margin_arithmetic Samples.minimal [rec] rec E (or_introl eq_refl))
    as (worst & lot & lotf & H1 & H2 & H3 & H4 & _).
  exists worst, lot, lotf. auto.
Defined.

(** The lot size of the record of [Samples.minimal]. *)
Lemma lot_size_positive_witness :
  exists rec,
    run Samples.minimal = inr [rec] /\
    exists n, rec !! "lot_size" = Some (PyInt n) /\ 0 < n.
Proof.
  pose proof minimal_one_record as Hlen.
  destruct (run Samples.minimal) as [e|[|rec [|? ?]]] eqn:E; try discriminate Hlen.
  exists rec. split; [reflexivity|].
  destruct (lot_size_positive Samples.minimal [rec] rec E (or_introl eq_refl))
    as (n & phy & H1 & H2 & _).
  exists n. auto.
Defined.

Lemma opt1_is_derived :
  match derive_contract Samples.ctx1 (Samples.at_root Samples.opt1) with
  | Some _ => true
  | None => false
  end = true.
Proof. vm_compute. reflexivity. Qed.

(** The worst value of [Samples.opt1]: its minimum is -300.5 and no value
    is a NaN. *)
Lemma worst_per_unit_abs_min_witness :
  exists rec worst,
    derive_contract Samples.ctx1 (Samples.at_root Samples.opt1) = Some rec /\
    rec !! "worst_RA_per_unit" = Some (PyFloat (fabs worst)) /\
    float_of_str "-300.5" = Some worst /\
    fle fzero (fabs worst) = true.
Proof.
  pose proof opt1_is_derived as Hd.
  destruct (derive_contract Samples.ctx1 (Samples.at_root Samples.opt1))
    as [rec|] eqn:E; [|discriminate Hd].
  destruct (worst_per_unit_abs_min _ _ rec E)
    as (ra & worst & Hra & Hne & Hmin & Hw & Hall).
  vm_compute in Hra. injection Hra as <-.
  vm_compute in Hmin. injection Hmin as <-.
  eexists rec, _. split; [reflexivity|]. split; [exact Hw|].
  split; [vm_compute; reflexivity|].
  apply Hall. vm_compute. repeat constructor.
Defined.

(** The underlying of [Samples.minimal] holds [lotSize] 15; the lot is 35. *)
Lemma lot_alias_value_discarded_witness :
  lot_candidates Samples.minimal_phy_node = ["15"%string] /\
  with_fallback (snd (read_underlying (Some Samples.minimal_phy_pf))) = 35.
Proof.
  split; [vm_compute; reflexivity|].
  apply (lot_alias_value_discarded Samples.minimal_phy_pf
           Samples.minimal_phy_node "lotSize").
  - vm_compute. reflexivity.
  - vm_compute. tauto.
  - exists "15"%string. vm_compute. reflexivity.
Defined.

(** [Samples.no_series] ends with the series error. *)
Lemma no_series_is_fatal_witness : run Samples.no_series = inl NoSeriesNodes.
Proof.
  apply (no_series_is_fatal Samples.no_series Samples.no_series_oop
           (Some Samples.no_series_phy)).
  - vm_compute. reflexivity.
  - vm_compute. reflexivity.
Defined.

Example two_blocks_clearing_located :
  Samples.clearing_of Samples.two_blocks = Some Samples.two_blocks_clearing /\
  Samples.clearing_of Samples.minimal = Some Samples.minimal_clearing.
Proof. split; vm_compute; reflexivity. Qed.

(** Without underlying portfolio the record is complete, with [None] in
    the spot, notional, exposure and total columns. *)
Example no_underlying_record :
  map (fun rec : record =>
         map (fun k => rec !! k)
             ["span_per_lot"; "spot_from_rpf"; "notional";
              "exposure_2.0000_pct"; "total_2.2600_pct"]%string)
      (match run Samples.no_underlying with inr recs => recs | inl _ => [] end)
  = [[PyFloat <$> float_of_str "10517.5"; Some PyNone; Some PyNone;
      Some PyNone; Some PyNone]].
Proof. vm_compute. reflexivity. Qed.

(** * Further properties of the code *)

(** ** The source loader *)

Section FindLemmas.
Context {A : Type}.
Variable f : A -> bool.

Lemma find_app_first (l1 l2 : list A) (x : A) :
  List.Forall (fun y => f y = false) l1 -> f x = true ->
  List.find f (l1 ++ x :: l2) = Some x.
Proof.
  intros H Hx. induction H as [|y l1 Hy _ IH]; simpl.
  - now rewrite Hx.
  - now rewrite Hy.
Qed.

Lemma find_none_iff (l : list A) :
  List.find f l = None <-> List.Forall (fun y => f y = false) l.
Proof.
  induction l as [|y l IH]; simpl.
  - split; [constructor | reflexivity].
  - destruct (f y) eqn:E; split; intros H.
    + discriminate.
    + inversion H; subst. congruence.
    + constructor; [exact E | now apply IH].
    + inversion H; subst. now apply IH.
Qed.

(** [fold_left] with a step that only ever overwrites: the last element
    satisfying the test decides. *)
Lemma find_some_split (l : list A) (x : A) :
  List.find f l = Some x ->
  exists l1 l2, l = l1 ++ x :: l2 /\ List.Forall (fun y => f y = false) l1 /\ f x = true.
Proof.
  induction l as [|y l IH]; simpl; [discriminate|].
  destruct (f y) eqn:E.
  - intros [= <-]. exists [], l. repeat split; [constructor | exact E].
  - intros (l1 & l2 & -> & H1 & Hx)%IH. exists (y :: l1), l2.
    repeat split; [constructor; assumption | exact Hx].
Qed.
End FindLemmas.

Lemma chars_app (a b : string) :
  list_ascii_of_string (a +:+ b) = list_ascii_of_string a ++ list_ascii_of_string b.
Proof.
  induction a as [|c a IH]; [reflexivity|].
  rewrite string_app_cons. simpl. now f_equal.
Qed.

Lemma string_of_chars_app (x y : list ascii) :
  string_of_list_ascii (x ++ y) = (string_of_list_ascii x +:+ string_of_list_ascii y)%string.
Proof.
  induction x as [|c x IH]; [reflexivity|].
  simpl. rewrite string_app_cons. now f_equal.
Qed.

Lemma lower_app (a b : string) :
  PyStr.lower (a +:+ b) = (PyStr.lower a +:+ PyStr.lower b)%string.
Proof.
  unfold PyStr.lower. now rewrite chars_app, map_app, string_of_chars_app.
Qed.

Lemma is_prefix_app (l m : list ascii) : Loader.is_prefix l (l ++ m) = true.
Proof.
  induction l as [|c l IH]; [reflexivity|].
  simpl. now rewrite Ascii.eqb_refl, IH.
Qed.

Lemma endswith_app (a suffix : string) : Loader.endswith (a +:+ suffix) suffix = true.
Proof.
  unfold Loader.endswith. rewrite chars_app, rev_app_distr. apply is_prefix_app.
Qed.

Lemma zip_suffix_added (path : string) :
  Loader.endswith (PyStr.lower (path +:+ ".zip")) ".zip" = true.
Proof. rewrite lower_app. apply endswith_app. Qed.

Lemma spn_suffix_added (path : string) :
  Loader.endswith (PyStr.lower (path +:+ ".spn")) ".zip" = false /\
  Loader.endswith (PyStr.lower (path +:+ ".spn")) ".spn" = true.
Proof.
  rewrite lower_app. split; [|apply endswith_app].
  unfold Loader.endswith. rewrite chars_app, rev_app_distr. reflexivity.
Qed.

(** X1: the loader calls itself at most once: with two calls allowed it
    returns, and with more it returns the same; for a path without
    extension whose archive exists a single call is not enough. *)
Theorem loader_terminates (fs : Loader.filesystem) (path : string) (fuel : nat) :
  (2 <= fuel)%nat ->
  exists r, Loader.read_spn_from_path fuel fs path = Some r /\
            Loader.read_spn_from_path 2 fs path = Some r.
Proof.
  intros H. destruct fuel as [|[|fuel]]; [lia|lia|].
  cbn [Loader.read_spn_from_path].
  destruct (Loader.endswith (PyStr.lower path) ".zip"); [eauto|].
  destruct (Loader.endswith (PyStr.lower path) ".spn"); [eauto|].
  destruct (Loader.exists_path fs (path +:+ ".zip")).
  - rewrite zip_suffix_added. eauto.
  - destruct (Loader.exists_path fs (path +:+ ".spn")); [|eauto].
    destruct (spn_suffix_added path) as [-> ->]. eauto.
Qed.

(** X2: for a path with neither extension the archive [path.zip] is
    preferred: when it exists the result is that of the archive branch,
    errors included, whether or not [path.spn] exists; otherwise the bytes
    of [path.spn] are returned, and without either file the input is
    reported missing. *)
Theorem loader_prefers_archive (fs : Loader.filesystem) (path : string) (fuel : nat) :
  Loader.endswith (PyStr.lower path) ".zip" = false ->
  Loader.endswith (PyStr.lower path) ".spn" = false ->
  Loader.read_spn_from_path (S (S fuel)) fs path
  = Some match fs !! (path +:+ ".zip")%string, fs !! (path +:+ ".spn")%string with
         | Some _, _ => Loader.read_zip fs (path +:+ ".zip")
         | None, Some f => inr (Loader.raw f)
         | None, None => inl Loader.InputNotFound
         end.
Proof.
  intros Hz Hs. cbn [Loader.read_spn_from_path]. rewrite Hz, Hs.
  unfold Loader.exists_path.
  destruct (fs !! (path +:+ ".zip")%string) as [fz|] eqn:Ez.
  - rewrite bool_decide_eq_true_2 by discriminate. now rewrite zip_suffix_added.
  - rewrite bool_decide_eq_false_2 by (intros H; now apply H).
    destruct (fs !! (path +:+ ".spn")%string) as [fp|] eqn:Ep.
    + rewrite bool_decide_eq_true_2 by discriminate.
      destruct (spn_suffix_added path) as [-> ->].
      unfold Loader.read_plain. now rewrite Ep.
    + rewrite bool_decide_eq_false_2 by (intros H; now apply H). reflexivity.
Qed.

Lemma zip_read_last (l1 l2 : list (string * string)) (name content : string) :
  ~ In name (Loader.namelist l2) ->
  Loader.zip_read (l1 ++ (name, content) :: l2) name = Some content.
Proof.
  intros Hl2. unfold Loader.zip_read.
  rewrite rev_app_distr. simpl. rewrite <- app_assoc. simpl.
  rewrite (find_app_first _ _ _ (name, content)); [reflexivity| |apply String.eqb_refl].
  apply List.Forall_forall. intros [n c] Hin%in_rev. cbn.
  apply String.eqb_neq. intros ->. apply Hl2.
  unfold Loader.namelist. apply in_map_iff. now exists (name, c).
Qed.

(** X3: the archive branch returns the bytes of the first member whose
    name, in lower case, ends with [.spn], when no later member repeats
    that name. *)
Theorem archive_first_spn_member (fs : Loader.filesystem) (path : string)
    (f : Loader.file) (ms l1 l2 : list (string * string)) (name content : string) :
  fs !! path = Some f ->
  Loader.members f = Some ms ->
  ms = l1 ++ (name, content) :: l2 ->
  List.Forall (fun n => Loader.endswith (PyStr.lower n) ".spn" = false) (Loader.namelist l1) ->
  Loader.endswith (PyStr.lower name) ".spn" = true ->
  ~ In name (Loader.namelist l2) ->
  Loader.read_zip fs path = inr content.
Proof.
  intros Hf Hm -> Hl1 Hn Hl2. unfold Loader.read_zip. rewrite Hf, Hm.
  unfold Loader.namelist at 1. rewrite map_app. cbn [map fst].
  rewrite (find_app_first _ _ _ name Hl1 Hn).
  now rewrite zip_read_last.
Qed.

(** X21: the archive branch fails in three ways: the archive is missing,
    the file is no archive, or, and only then with the third error, none
    of its members has a name ending with [.spn] in lower case. *)
Theorem archive_errors (fs : Loader.filesystem) (path : string) :
  (fs !! path = None -> Loader.read_zip fs path = inl Loader.ZipNotFound) /\
  (forall f, fs !! path = Some f -> Loader.members f = None ->
             Loader.read_zip fs path = inl Loader.BadZipFile) /\
  (forall f ms, fs !! path = Some f -> Loader.members f = Some ms ->
     (List.Forall (fun n => Loader.endswith (PyStr.lower n) ".spn" = false)
                  (Loader.namelist ms) <->
      Loader.read_zip fs path = inl Loader.NoSpnInZip)).
Proof.
  unfold Loader.read_zip. split; [|split].
  - intros ->. reflexivity.
  - intros f -> ->. reflexivity.
  - intros f ms -> ->. split.
    + intros H. apply find_none_iff in H. now rewrite H.
    + destruct (List.find _ (Loader.namelist ms)) as [n|] eqn:E.
      * apply find_some_split in E as (n1 & n2 & E & _ & _).
        assert (In n (Loader.namelist ms)) as Hin
          by (rewrite E; apply in_or_app; right; now left).
        unfold Loader.namelist in Hin. apply in_map_iff in Hin as ([n' c] & <- & Hin).
        unfold Loader.zip_read.
        destruct (List.find _ (rev ms)) as [m|] eqn:Em; [discriminate|].
        apply find_none_iff in Em.
        apply in_rev in Hin.
        apply (proj1 (List.Forall_forall _ _) Em) in Hin.
        cbn in Hin. now rewrite String.eqb_refl in Hin.
      * intros _. now apply find_none_iff.
Qed.

(** ** Parent lookup *)

Lemma Element_ind_children (P : Element -> Prop) :
  (forall t x cs, List.Forall P cs -> P (Elem t x cs)) -> forall e, P e.
Proof.
  intros H. fix IH 1. intros [t x cs]. apply H.
  revert cs. fix IHcs 1. intros [|c cs]; constructor; [apply IH | apply IHcs].
Qed.

Lemma iter_at_unfold (p : path) (t : string) (x : option string) (cs : list Element) :
  iter_at p (Elem t x cs) = (p, Elem t x cs) :: iter_children p 0 cs.
Proof.
  simpl. f_equal. generalize 0%nat.
  induction cs as [|c cs IH]; intros i; simpl; [reflexivity|]. now rewrite IH.
Qed.

Lemma kids_from (p : path) (i : nat) (cs : list Element) (c : Node) :
  In c (imap (fun j e => (p ++ [(i + j)%nat], e)) cs) <->
  exists j, fst c = p ++ [(i + j)%nat] /\ cs !! j = Some (snd c).
Proof.
  revert i. induction cs as [|e cs IH]; intros i; cbn.
  - split; [intros [] | intros (j & _ & H); discriminate].
  - rewrite (imap_ext _ (fun j e0 => (p ++ [(S i + j)%nat], e0)))
      by (intros j y _; cbn; do 3 f_equal; lia).
    rewrite IH. split.
    + intros [<-|(j & Hp & Hc)].
      * exists 0%nat. now rewrite Nat.add_0_r.
      * exists (S j). split; [rewrite Hp; do 2 f_equal; lia | exact Hc].
    + intros ([|j] & Hp & Hc).
      * left. cbn in Hc. injection Hc as Hc. rewrite Nat.add_0_r in *.
        destruct c; cbn in *; now subst.
      * right. exists j. split; [rewrite Hp; do 2 f_equal; lia | exact Hc].
Qed.

(** The children of a node are the elements one index below it. *)
Lemma kids_spec (n c : Node) :
  In c (kids n) <->
  exists i, fst c = fst n ++ [i] /\ children (snd n) !! i = Some (snd c).
Proof. unfold kids. apply (kids_from (fst n) 0). Qed.

Lemma iter_children_spec (p : path) (cs : list Element) :
  List.Forall (fun e => forall p n, In n (iter_at p e) <->
                          exists q, fst n = p ++ q /\ node_at e q = Some (snd n)) cs ->
  forall i n, In n (iter_children p i cs) <->
    exists j c q, cs !! j = Some c /\ fst n = p ++ (i + j)%nat :: q /\
                  node_at c q = Some (snd n).
Proof.
  induction 1 as [|e cs He _ IH]; intros i n; cbn [iter_children].
  - split; [intros [] | intros (j & c & q & H & _); discriminate].
  - rewrite in_app_iff, He, IH. split.
    + intros [(q & Hp & Hq)|(j & c & q & Hj & Hp & Hq)].
      * exists 0%nat, e, q. rewrite Nat.add_0_r, Hp, <- app_assoc. auto.
      * exists (S j), c, q. split; [exact Hj|].
        split; [rewrite Hp; do 2 f_equal; lia | exact Hq].
    + intros ([|j] & c & q & Hj & Hp & Hq).
      * left. cbn in Hj. injection Hj as <-. exists q.
        rewrite Hp, Nat.add_0_r, <- app_assoc. auto.
      * right. exists j, c, q. split; [exact Hj|].
        split; [rewrite Hp; do 2 f_equal; lia | exact Hq].
Qed.

(** The nodes of [iter] are the elements reachable by child indices, each
    at its own position. *)
Lemma iter_at_spec (e : Element) (p : path) (n : Node) :
  In n (iter_at p e) <-> exists q, fst n = p ++ q /\ node_at e q = Some (snd n).
Proof.
  revert p n. induction e as [t x cs IH] using Element_ind_children. intros p n.
  rewrite iter_at_unfold. cbn [In]. rewrite (iter_children_spec p cs IH). split.
  - intros [<-|(j & c & q & Hj & Hp & Hq)].
    + exists []. now rewrite app_nil_r.
    + exists (j :: q). split; [exact Hp|]. cbn. now rewrite Hj.
  - intros ([|j q] & Hp & Hq).
    + left. cbn in Hq. injection Hq as Hq. rewrite app_nil_r in Hp.
      destruct n; cbn in *; now subst.
    + right. cbn in Hq.
      destruct (cs !! j) as [c|] eqn:Hj; [|discriminate].
      exists j, c, q. auto.
Qed.

Lemma iter_tail_spec (root n : Node) :
  In n (tl (iter root)) <->
  exists j q, fst n = fst root ++ j :: q /\ node_at (snd root) (j :: q) = Some (snd n).
Proof.
  unfold iter. destruct root as [p [t x cs]]. cbn [fst snd].
  rewrite iter_at_unfold. cbn [tl].
  rewrite (iter_children_spec p cs).
  - split.
    + intros (j & c & q & Hj & Hp & Hq). exists j, q. split; [exact Hp|].
      cbn. now rewrite Hj.
    + intros (j & q & Hp & Hq). cbn in Hq.
      destruct (cs !! j) as [c|] eqn:Hj; [|discriminate]. exists j, c, q. auto.
  - apply List.Forall_forall. intros e _ p' n'. apply iter_at_spec.
Qed.

Lemma node_at_snoc (e : Element) (q : path) (i : nat) :
  node_at e (q ++ [i]) = node_at e q ≫= fun pe => children pe !! i.
Proof.
  revert e. induction q as [|j q IH]; intros e; cbn.
  - now destruct (children e !! i).
  - destruct (children e !! j) as [c|]; cbn; [apply IH | reflexivity].
Qed.

(** The parent of a proper descendant is found, and it is the only node
    of the tree having it as a child. *)
Lemma get_parent_of_descendant (root c : Node) :
  In c (tl (iter root)) ->
  exists p, get_parent root c = Some p /\ In p (iter root) /\ In c (kids p) /\
            forall p', In p' (iter root) -> In c (kids p') -> p' = p.
Proof.
  intros (j & q & Hp & Hq)%iter_tail_spec.
  destruct (exists_last (l := j :: q) ltac:(discriminate)) as (q' & i & E).
  rewrite E in Hp, Hq. rewrite node_at_snoc in Hq.
  destruct (node_at (snd root) q') as [pe|] eqn:Hpe; [|discriminate]. cbn in Hq.
  set (P := (fst root ++ q', pe) : Node).
  assert (In P (iter root)) as HP by (apply iter_at_spec; now exists q').
  assert (In c (kids P)) as HcP.
  { apply kids_spec. exists i. cbn. now rewrite Hp, app_assoc. }
  assert (forall p', In p' (iter root) ->
            (exists c', In c' (kids p') /\ fst c' = fst c) -> p' = P) as Huniq.
  { intros p' (q'' & Hp' & Hq'')%iter_at_spec (c' & (i' & Hc' & _)%kids_spec & Ec).
    rewrite Hc', Hp', Hp, <- app_assoc in Ec.
    apply app_inv_head in Ec.
    apply app_inj_tail in Ec as [-> ->].
    rewrite Hpe in Hq''. injection Hq'' as Hq''.
    destruct p'; cbn in *; unfold P; now subst. }
  unfold get_parent.
  destruct (List.find _ (iter root)) as [p0|] eqn:Ef.
  - apply find_some in Ef as [Hin Ht].
    apply existsb_exists in Ht as (c' & Hc' & Hs).
    apply bool_decide_eq_true in Hs.
    assert (p0 = P) as -> by (apply Huniq; eauto).
    exists P. repeat split; try assumption.
    intros p' Hin' Hk. apply Huniq; eauto.
  - exfalso. apply find_none_iff in Ef.
    apply (proj1 (List.Forall_forall _ _) Ef) in HP.
    apply not_true_iff_false in HP. apply HP.
    apply existsb_exists. exists c. split; [exact HcP|].
    now apply bool_decide_eq_true.
Qed.

(** X4: the brute-force parent lookup is exact.  For every proper
    descendant [c] of [root], [get_parent root c] is a node of the tree one
    of whose children is [c], and it is the only such node; the root itself
    has no parent. *)
Theorem get_parent_exact (root c : Node) :
  (In c (tl (iter root)) ->
   exists p, get_parent root c = Some p /\ In p (iter root) /\ In c (kids p) /\
             forall p', In p' (iter root) -> In c (kids p') -> p' = p) /\
  get_parent root root = None.
Proof.
  split; [apply get_parent_of_descendant|].
  unfold get_parent. apply find_none_iff, List.Forall_forall.
  intros p (q & Hp & _)%iter_at_spec.
  apply not_true_iff_false. intros (c' & (i & Hc' & _)%kids_spec & Hs)%existsb_exists.
  apply bool_decide_eq_true in Hs. rewrite Hc', Hp, <- app_assoc in Hs.
  apply (f_equal (@length nat)) in Hs. rewrite !length_app in Hs. cbn in Hs. lia.
Qed.

(** ** The locator's strategies *)

Lemma bank_pf_parents_loop (clearing : Node) (pfs : list Node) (acc : list Node) :
  fold_left
    (fun acc pf =>
       if is_symbol (PyStr.or_empty (ntext pf)) then
         match get_parent clearing pf with
         | Some parent => acc ++ [parent]
         | None => acc
         end
       else acc) pfs acc
  = acc ++ omap (fun pf => if is_symbol (PyStr.or_empty (ntext pf))
                           then get_parent clearing pf else None) pfs.
Proof.
  rewrite <- (fold_append_omap
                (fun pf => if is_symbol (PyStr.or_empty (ntext pf))
                           then get_parent clearing pf else None)).
  revert acc. induction pfs as [|pf pfs IH]; intros acc; [reflexivity|].
  cbn [fold_left]. rewrite IH. now destruct (is_symbol _).
Qed.

Lemma bank_pf_parents_elem (clearing p : Node) :
  In p (bank_pf_parents clearing) <->
  exists pf, In pf (findall_desc "pfCode" clearing) /\
             is_symbol (PyStr.or_empty (ntext pf)) = true /\
             get_parent clearing pf = Some p.
Proof.
  unfold bank_pf_parents. rewrite bank_pf_parents_loop. cbn [app].
  rewrite in_omap. split.
  - intros (pf & Hin & Hp). destruct (is_symbol _) eqn:Hs; [|discriminate].
    now exists pf.
  - intros (pf & Hin & Hs & Hp). exists pf. now rewrite Hs.
Qed.

Lemma bank_pf_parents_in_iter (clearing p : Node) :
  In p (bank_pf_parents clearing) -> In p (iter clearing).
Proof.
  intros (pf & [Hin _]%filter_In & _ & Hg)%bank_pf_parents_elem.
  destruct (get_parent_of_descendant clearing pf Hin) as (p0 & Hg0 & Hi & _).
  congruence.
Qed.

(** X5: the collected parents are exactly the nodes of the clearing
    subtree that have a direct [pfCode] child whose text is the symbol. *)
Theorem bank_pf_parents_exact (clearing p : Node) :
  In p (bank_pf_parents clearing) <->
  In p (iter clearing) /\
  exists pf, In pf (kids p) /\ ntag pf = "pfCode"%string /\
             is_symbol (PyStr.or_empty (ntext pf)) = true.
Proof.
  rewrite bank_pf_parents_elem. unfold findall_desc. split.
  - intros (pf & [Hin Htag]%filter_In & Hs & Hp).
    destruct (get_parent_of_descendant clearing pf Hin) as (p0 & Hg & Hi & Hk & _).
    rewrite Hg in Hp. injection Hp as <-.
    split; [exact Hi|]. exists pf. apply String.eqb_eq in Htag. auto.
  - intros (Hi & pf & Hk & Htag & Hs).
    assert (In pf (tl (iter clearing))) as Hpf.
    { apply iter_at_spec in Hi as (q & Hp & Hq).
      apply kids_spec in Hk as (i & Hc & Hch).
      apply iter_tail_spec.
      destruct (q ++ [i]) as [|j q'] eqn:E; [now destruct q|].
      exists j, q'. rewrite <- E, node_at_snoc, Hq. cbn.
      split; [now rewrite Hc, Hp, app_assoc | exact Hch]. }
    exists pf. split; [|split; [exact Hs|]].
    + apply filter_In. split; [exact Hpf | now apply String.eqb_eq].
    + destruct (get_parent_of_descendant clearing pf Hpf) as (p0 & Hg & _ & _ & Hu).
      rewrite Hg. f_equal. symmetry. now apply Hu.
Qed.

Lemma scan_child_options (l : located) (p : Node) :
  oop_pf (scan_child l p) = if scan_takes_options p then Some p else oop_pf l.
Proof.
  unfold scan_child, scan_takes_options.
  destruct (is_symbol _); [|reflexivity]. cbn.
  destruct (bool_decide (find "series" p <> None)); [reflexivity|].
  destruct (bool_decide (find "phy" p <> None)); reflexivity.
Qed.

Lemma scan_child_underlying (l : located) (p : Node) :
  phy_pf (scan_child l p) = if scan_takes_underlying p then Some p else phy_pf l.
Proof.
  unfold scan_child, scan_takes_underlying.
  destruct (is_symbol _); [|reflexivity]. cbn.
  destruct (bool_decide (find "series" p <> None)); [reflexivity|]. cbn.
  destruct (bool_decide (find "phy" p <> None)); reflexivity.
Qed.

(** A loop that overwrites on every hit ends with the last hit. *)
Lemma scan_options_last (ps : list Node) (l : located) :
  oop_pf (fold_left scan_child ps l)
  = match List.find scan_takes_options (rev ps) with
    | Some p => Some p
    | None => oop_pf l
    end.
Proof.
  revert l. induction ps as [|p ps IH] using rev_ind; intros l; [reflexivity|].
  rewrite fold_left_app, rev_app_distr. cbn.
  rewrite scan_child_options. destruct (scan_takes_options p); [reflexivity | apply IH].
Qed.

Lemma scan_underlying_last (ps : list Node) (l : located) :
  phy_pf (fold_left scan_child ps l)
  = match List.find scan_takes_underlying (rev ps) with
    | Some p => Some p
    | None => phy_pf l
    end.
Proof.
  revert l. induction ps as [|p ps IH] using rev_ind; intros l; [reflexivity|].
  rewrite fold_left_app, rev_app_distr. cbn.
  rewrite scan_child_underlying. destruct (scan_takes_underlying p); [reflexivity | apply IH].
Qed.

(** C9, as the code has it: the scan of the clearing node's children is
    applied exactly when the options portfolio or the underlying portfolio
    is still missing after the earlier strategies, so also when only the
    underlying is missing; when both were found it is not applied.  When
    the options portfolio is missing, the scan finds one exactly when some
    direct child of the clearing node carries the symbol and has a
    [series] child.  An options portfolio found earlier is kept if every
    direct child that carries the symbol and has a [series] child is that
    portfolio itself. *)
Theorem child_scan_when_either_missing (clearing : Node) (l : located) :
  (oop_pf l = None \/ phy_pf l = None ->
   by_children clearing l = fold_left scan_child (kids clearing) l) /\
  (oop_pf l <> None /\ phy_pf l <> None -> by_children clearing l = l) /\
  (oop_pf l = None ->
   (oop_pf (by_children clearing l) = None <->
    Forall (fun p => scan_takes_options p = false) (kids clearing))) /\
  (forall o, oop_pf l = Some o ->
     Forall (fun p => scan_takes_options p = true -> p = o) (kids clearing) ->
     oop_pf (by_children clearing l) = Some o).
Proof.
  assert (oop_pf l = None \/ phy_pf l = None ->
          by_children clearing l = fold_left scan_child (kids clearing) l) as Hrun.
  { intros H. unfold by_children.
    destruct H as [-> | ->]; cbn; [reflexivity|].
    now rewrite orb_true_r. }
  split; [exact Hrun|]. split; [|split].
  - intros [Ho Hp]. unfold by_children.
    rewrite (bool_decide_eq_false_2 _ Ho), (bool_decide_eq_false_2 _ Hp).
    reflexivity.
  - intros Ho. rewrite (Hrun (or_introl Ho)), scan_options_last, Ho.
    destruct (List.find scan_takes_options (rev (kids clearing))) as [p|] eqn:Ef.
    + split; [discriminate|]. intros H. exfalso.
      apply find_some in Ef as [Hin%in_rev Ht].
      apply (proj1 (List.Forall_forall _ _) H) in Hin. congruence.
    + split; [|reflexivity]. intros _. apply find_none_iff in Ef.
      apply List.Forall_forall. intros p Hin%in_rev.
      now apply (proj1 (List.Forall_forall _ _) Ef).
  - intros o Ho Hall. unfold by_children.
    destruct (_ || _); [|exact Ho].
    rewrite scan_options_last, Ho.
    destruct (List.find scan_takes_options (rev (kids clearing))) as [p|] eqn:Ef;
      [|reflexivity].
    apply find_some in Ef as [Hin%in_rev Ht]. f_equal.
    now apply (proj1 (List.Forall_forall _ _) Hall).
Qed.

(** C9, as stated, fails without any regard to [found_op]: in
    [MoreSamples.half_tagged_clearing] the options portfolio is found by
    the earlier strategies (the [oopPf] block), the underlying block has
    another tag and is missing; the scan is applied all the same, and it
    finds the underlying, so the result is not that of the earlier
    strategies. *)
Lemma child_scan_runs_with_resolved_options :
  ~ (forall clearing o : Node,
       oop_pf (earlier_strategies clearing) = Some o ->
       resolve clearing = earlier_strategies clearing).
Proof.
  intros H.
  specialize (H MoreSamples.half_tagged_clearing Samples.two_blocks_first).
  assert (oop_pf (earlier_strategies MoreSamples.half_tagged_clearing)
          = Some Samples.two_blocks_first) as H1 by (vm_compute; reflexivity).
  apply H in H1. apply (f_equal phy_pf) in H1. vm_compute in H1. discriminate.
Qed.

(** The scan on three clearing nodes.  In
    [MoreSamples.half_tagged_clearing] only the underlying is missing: the
    scan runs, finds it, and keeps the options portfolio, the only child
    with the symbol and a [series].  In [MoreSamples.untagged_clearing]
    the options portfolio is missing and the scan finds one.  In
    [Samples.minimal_clearing] both were found and the scan does not run. *)
Lemma child_scan_when_either_missing_witness :
  by_children MoreSamples.half_tagged_clearing
              (earlier_strategies MoreSamples.half_tagged_clearing)
  = fold_left scan_child (kids MoreSamples.half_tagged_clearing)
              (earlier_strategies MoreSamples.half_tagged_clearing) /\
  oop_pf (by_children MoreSamples.half_tagged_clearing
                      (earlier_strategies MoreSamples.half_tagged_clearing))
  = Some Samples.two_blocks_first /\
  phy_pf (by_children MoreSamples.half_tagged_clearing
                      (earlier_strategies MoreSamples.half_tagged_clearing))
  = Some MoreSamples.half_tagged_underlying /\
  oop_pf (earlier_strategies MoreSamples.untagged_clearing) = None /\
  oop_pf (by_children MoreSamples.untagged_clearing
                      (earlier_strategies MoreSamples.untagged_clearing)) <> None /\
  by_children Samples.minimal_clearing (earlier_strategies Samples.minimal_clearing)
  = earlier_strategies Samples.minimal_clearing.
Proof.
  destruct (child_scan_when_either_missing MoreSamples.half_tagged_clearing
              (earlier_strategies MoreSamples.half_tagged_clearing))
    as (Hrun & _ & _ & Hkeep).
  destruct (child_scan_when_either_missing MoreSamples.untagged_clearing
              (earlier_strategies MoreSamples.untagged_clearing))
    as (_ & _ & Hfind & _).
  destruct (child_scan_when_either_missing Samples.minimal_clearing
              (earlier_strategies Samples.minimal_clearing))
    as (_ & Hboth & _ & _).
  split; [apply Hrun; right; vm_compute; reflexivity|].
  split.
  { apply Hkeep; [vm_compute; reflexivity|].
    apply List.Forall_forall. intros p Hin Hq. vm_compute in Hin.
    destruct Hin as [<-|[<-|[]]]; [reflexivity | vm_compute in Hq; discriminate Hq]. }
  split; [vm_compute; reflexivity|].
  assert (oop_pf (earlier_strategies MoreSamples.untagged_clearing) = None) as Hnone
    by (vm_compute; reflexivity).
  split; [exact Hnone|].
  split.
  { intros H. apply (Hfind Hnone) in H.
    assert (scan_takes_options ([0; 0; 1]%nat, MoreSamples.untagged_options) = false)
      as Hq.
    { apply (proj1 (List.Forall_forall _ _) H).
      vm_compute. right. left. reflexivity. }
    vm_compute in Hq. discriminate Hq. }
  apply Hboth. split; vm_compute; discriminate.
Defined.

(** X6: when the scan of the clearing node's children runs, it ends with
    the last child that carries the symbol and has a [series] child as the
    options portfolio, not the first: the variable [found_op] is tested
    but never assigned. *)
Theorem child_scan_takes_last (clearing : Node) (l : located)
    (l1 l2 : list Node) (p : Node) :
  oop_pf l = None \/ phy_pf l = None ->
  kids clearing = l1 ++ p :: l2 ->
  scan_takes_options p = true ->
  List.Forall (fun p' => scan_takes_options p' = false) l2 ->
  oop_pf (by_children clearing l) = Some p.
Proof.
  intros Hmiss Hk Hp Hl2. unfold by_children.
  assert (bool_decide (oop_pf l = None) || bool_decide (phy_pf l = None) = true) as ->.
  { destruct Hmiss as [-> | ->]; cbn; [reflexivity | apply orb_true_r]. }
  rewrite scan_options_last, Hk, rev_app_distr. cbn. rewrite <- app_assoc. cbn.
  rewrite (find_app_first _ _ _ p); [reflexivity| |exact Hp].
  apply List.Forall_forall. intros p' Hin%in_rev.
  now apply (proj1 (List.Forall_forall _ _) Hl2).
Qed.

(** X20: likewise the scan ends with the last child that carries the
    symbol and has a [phy] child but no [series] child as the underlying
    portfolio; a child with both is taken as options portfolio only. *)
Theorem child_scan_underlying_last (clearing : Node) (l : located)
    (l1 l2 : list Node) (p : Node) :
  oop_pf l = None \/ phy_pf l = None ->
  kids clearing = l1 ++ p :: l2 ->
  scan_takes_underlying p = true ->
  List.Forall (fun p' => scan_takes_underlying p' = false) l2 ->
  phy_pf (by_children clearing l) = Some p /\
  scan_takes_options p = false.
Proof.
  intros Hmiss Hk Hp Hl2. split.
  - unfold by_children.
    assert (bool_decide (oop_pf l = None) || bool_decide (phy_pf l = None) = true) as ->.
    { destruct Hmiss as [-> | ->]; cbn; [reflexivity | apply orb_true_r]. }
    rewrite scan_underlying_last, Hk, rev_app_distr. cbn. rewrite <- app_assoc. cbn.
    rewrite (find_app_first _ _ _ p); [reflexivity| |exact Hp].
    apply List.Forall_forall. intros p' Hin%in_rev.
    now apply (proj1 (List.Forall_forall _ _) Hl2).
  - unfold scan_takes_underlying in Hp. unfold scan_takes_options.
    destruct (is_symbol _); [|reflexivity].
    destruct (bool_decide (find "series" p <> None)); [discriminate Hp | reflexivity].
Qed.

Lemma kids_in_iter (n c : Node) : In c (kids n) -> In c (iter n).
Proof.
  intros (i & Hc & Hch)%kids_spec. apply iter_at_spec. exists [i].
  split; [exact Hc|]. cbn. now rewrite Hch.
Qed.

(** X7: whatever strategy finds it, the options portfolio is a node of the
    clearing subtree, and it is tagged [oopPf] up to case or is a direct
    child of the clearing node that carries the symbol and has a [series]
    child. *)
Theorem located_options_shape (clearing o : Node) :
  oop_pf (resolve clearing) = Some o ->
  In o (iter clearing) /\
  (PyStr.lower (ntag o) = "ooppf"%string \/
   (In o (kids clearing) /\ scan_takes_options o = true)).
Proof.
  assert (oop_pf (earlier_strategies clearing) = Some o ->
          In o (iter clearing) /\ PyStr.lower (ntag o) = "ooppf"%string) as Hearly.
  { unfold earlier_strategies, by_tag, among_parents. cbn [oop_pf].
    destruct (List.find _ (bank_pf_parents clearing)) as [n|] eqn:Ef.
    - intros [= ->]. apply find_some in Ef as [Hin Ht].
      apply bank_pf_parents_in_iter in Hin. split; [exact Hin|].
      unfold tag_is in Ht. apply orb_prop in Ht as [Ht|Ht];
        now apply String.eqb_eq in Ht.
    - unfold find_desc. intros [Hin Ht]%find_some. split.
      + unfold iter in *. destruct (iter_at _ _); [destruct Hin | now right].
      + apply String.eqb_eq in Ht. now rewrite Ht. }
  unfold resolve, by_children. destruct (_ || _).
  - rewrite scan_options_last.
    destruct (List.find scan_takes_options _) as [p|] eqn:Ef.
    + intros [= ->]. apply find_some in Ef as [Hin%in_rev Ht].
      split; [now apply kids_in_iter | right; auto].
    + intros H. destruct (Hearly H). auto.
  - intros H. destruct (Hearly H). auto.
Qed.

(** X8: the options portfolio is missing exactly when no node of the
    clearing subtree tagged [oopPf] up to case has a direct [pfCode] child
    with the symbol, no proper descendant is tagged [oopPf], and no direct
    child carries the symbol together with a [series] child. *)
Theorem options_not_found_iff (clearing : Node) :
  oop_pf (resolve clearing) = None <->
  (forall p, In p (bank_pf_parents clearing) -> PyStr.lower (ntag p) <> "ooppf"%string) /\
  (forall n, In n (tl (iter clearing)) -> ntag n <> "oopPf"%string) /\
  (forall p, In p (kids clearing) -> scan_takes_options p = false).
Proof.
  assert (oop_pf (earlier_strategies clearing) = None <->
          (forall p, In p (bank_pf_parents clearing) ->
                     PyStr.lower (ntag p) <> "ooppf"%string) /\
          (forall n, In n (tl (iter clearing)) -> ntag n <> "oopPf"%string)) as Hearly.
  { unfold earlier_strategies, by_tag, among_parents, find_desc. cbn [oop_pf].
    destruct (List.find _ (bank_pf_parents clearing)) as [n|] eqn:Ef.
    - split; [discriminate|]. intros [H _]. exfalso.
      apply find_some in Ef as [Hin Ht]. apply (H n Hin).
      unfold tag_is in Ht. apply orb_prop in Ht as [Ht|Ht];
        now apply String.eqb_eq in Ht.
    - rewrite find_none_iff in Ef. rewrite find_none_iff. split.
      + intros H. split.
        * intros p Hin Ht. apply (proj1 (List.Forall_forall _ _) Ef) in Hin.
          unfold tag_is in Hin. apply orb_false_elim in Hin as [Hin _].
          apply String.eqb_neq in Hin. now apply Hin.
        * intros n Hin Ht. apply (proj1 (List.Forall_forall _ _) H) in Hin.
          apply String.eqb_neq in Hin. now apply Hin.
      + intros [_ H]. apply List.Forall_forall. intros n Hin.
        apply String.eqb_neq. now apply H. }
  unfold resolve, by_children.
  destruct (bool_decide (oop_pf (earlier_strategies clearing) = None)) eqn:Eo.
  - apply bool_decide_eq_true in Eo. cbn [orb]. rewrite scan_options_last, Eo.
    destruct (List.find scan_takes_options _) as [p|] eqn:Ef.
    + split; [discriminate|]. intros (_ & _ & H). exfalso.
      apply find_some in Ef as [Hin%in_rev Ht]. rewrite (H p Hin) in Ht. discriminate.
    + split; [|reflexivity]. intros _. apply Hearly in Eo as [H1 H2].
      split; [exact H1|]. split; [exact H2|].
      intros p Hin%in_rev. apply find_none_iff in Ef.
      now apply (proj1 (List.Forall_forall _ _) Ef).
  - apply bool_decide_eq_false in Eo. split.
    + intros H. exfalso. apply Eo.
      destruct (bool_decide (phy_pf (earlier_strategies clearing) = None)); cbn [orb] in H.
      * rewrite scan_options_last in H.
        destruct (List.find scan_takes_options _); [discriminate | exact H].
      * exact H.
    + intros (H1 & H2 & _). exfalso. apply Eo, Hearly. auto.
Qed.

Lemma bank_pf_parents_none (clearing : Node) :
  List.Forall (fun pf => is_symbol (PyStr.or_empty (ntext pf)) = false)
              (findall_desc "pfCode" clearing) ->
  bank_pf_parents clearing = [].
Proof.
  intros H. unfold bank_pf_parents. rewrite bank_pf_parents_loop. cbn [app].
  induction H as [|pf pfs Hpf _ IH]; [reflexivity|]. cbn. now rewrite Hpf.
Qed.

(** X9: the search by tag does not look at the family code.  When no
    [pfCode] of the clearing subtree holds the symbol, the first two
    strategies still return the first element tagged [oopPf] and the first
    tagged [phyPf], whatever symbol they belong to. *)
Theorem tag_search_ignores_symbol (clearing : Node) :
  List.Forall (fun pf => is_symbol (PyStr.or_empty (ntext pf)) = false)
              (findall_desc "pfCode" clearing) ->
  earlier_strategies clearing
  = {| oop_pf := find_desc "oopPf" clearing; phy_pf := find_desc "phyPf" clearing |}.
Proof.
  intros H. unfold earlier_strategies, by_tag, among_parents.
  now rewrite (bank_pf_parents_none clearing H).
Qed.

(** ** Which contracts are emitted, and in which order *)

Lemma rate_columns_fails (rates : list float) (r : float) span notional :
  In r rates -> rate_label r = None -> rate_columns rates span notional = None.
Proof.
  intros Hin Hr. induction rates as [|r' rates IH] using rev_ind; [destruct Hin|].
  rewrite rate_columns_snoc. apply in_app_or in Hin as [Hin|[<-|[]]].
  - now rewrite (IH Hin).
  - destruct (rate_columns rates span notional) as [[E T]|]; [|reflexivity].
    cbn. unfold exposure_key. now rewrite Hr.
Qed.

Lemma rate_columns_defined (rates : list float) span notional :
  (forall r, In r rates -> rate_label r <> None) ->
  rate_columns rates span notional <> None.
Proof.
  induction rates as [|r rates IH] using rev_ind; intros H; [discriminate|].
  rewrite rate_columns_snoc.
  destruct (rate_columns rates span notional) as [[E T]|] eqn:Er.
  - cbn. unfold exposure_key, total_key.
    destruct (rate_label r) eqn:Hr; [discriminate|].
    exfalso. apply (H r); [apply in_or_app; right; now left | exact Hr].
  - exfalso. apply IH; [|reflexivity]. intros r' Hin. apply H, in_or_app. now left.
Qed.

Lemma configured_labels_defined (r : float) :
  In r EXPOSURE_RATES -> rate_label r <> None.
Proof. intros [<-|[<-|[]]]; vm_compute; discriminate. Qed.

Lemma extractable_true_inv (opt : Node) :
  extractable opt = true ->
  exists ra_node, find "ra" opt = Some ra_node /\
                  coerce_values (map ntext (findall "a" ra_node)) <> [].
Proof.
  unfold extractable, scenario_texts.
  destruct (find "ra" opt) as [ra|]; [|discriminate]. cbn.
  intros (v & Hin & Hv)%existsb_exists. apply bool_decide_eq_true in Hv.
  exists ra. split; [reflexivity|].
  rewrite coerce_values_spec. intros Hnil.
  apply spec_coerce_nil_iff in Hnil.
  apply Hv. now apply (proj1 (List.Forall_forall _ _) Hnil).
Qed.

(** With the lot size and the rates of the script nothing in the [try]
    block raises. *)
Lemma extractable_is_derived (phy : option Node) (s opt : Node) :
  extractable opt = true -> derive_contract (run_context phy s) opt <> None.
Proof.
  intros (ra & Hra & Hne)%extractable_true_inv.
  unfold derive_contract. rewrite Hra. cbn [mbind option_bind].
  destruct (coerce_values _) as [|x l]; [contradiction|]. cbn [py_min].
  cbn [mbind option_bind].
  unfold run_context. cbn [ctx_lot_size ctx_rates series_context].
  rewrite lot_size_is_35. unfold fmul_int.
  change (float_of_int 35) with (Some (S754_finite false 4925812092436480 (-47))).
  cbn [mbind option_bind]. unfold notional_of.
  cbn [ctx_spot ctx_lot_size series_context].
  destruct (fst (read_underlying phy)) as [spot|].
  - unfold fmul_int.
    change (float_of_int 35) with (Some (S754_finite false 4925812092436480 (-47))).
    cbn [fmap option_fmap option_map mbind option_bind].
    destruct (rate_columns EXPOSURE_RATES _ _) as [[E T]|] eqn:Er; [discriminate|].
    exfalso. revert Er. apply rate_columns_defined, configured_labels_defined.
  - cbn [mbind option_bind].
    destruct (rate_columns EXPOSURE_RATES _ _) as [[E T]|] eqn:Er; [discriminate|].
    exfalso. revert Er. apply rate_columns_defined, configured_labels_defined.
Qed.

(** X10: in a run a contract yields a record exactly when it has
    extractable scenario values: with the lot size and the rates of the
    script, nothing in the [try] block raises, and unreadable strike,
    premium or delta texts do not stop the record. *)
Theorem emitted_iff_extractable (phy : option Node) (s opt : Node) :
  derive_contract (run_context phy s) opt <> None <-> extractable opt = true.
Proof.
  split; [|apply extractable_is_derived].
  intros H. destruct (extractable opt) eqn:E; [reflexivity|].
  exfalso. apply H. now apply unextractable_skipped.
Qed.

Lemma omap_length_filter {A B} (f : A -> option B) (keep : A -> bool) (l : list A) :
  (forall x, f x <> None <-> keep x = true) ->
  length (omap f l) = length (List.filter keep l).
Proof.
  intros H. induction l as [|x l IH]; [reflexivity|]. cbn.
  destruct (f x) as [y|] eqn:E; destruct (keep x) eqn:K; cbn.
  - now rewrite IH.
  - exfalso. assert (f x <> None) as Hx by congruence.
    apply H in Hx. congruence.
  - exfalso. apply (proj2 (H x)); assumption.
  - exact IH.
Qed.

(** X11: the records of a run follow the document: series by series and,
    within a series, contract by contract, and there is one record for
    each contract with extractable values. *)
Theorem records_follow_document (root : Element) (recs : list record) :
  run root = inr recs ->
  exists oop phy,
    locate root = inr (oop, phy) /\
    recs = flat_map (fun s => omap (derive_contract (run_context phy s))
                                   (findall "opt" s))
                    (findall "series" oop) /\
    length recs
    = length (List.filter extractable (all_contracts (findall "series" oop))).
Proof.
  intros (oop & phy & ss & Hl & Hs & _ & ->)%run_inv.
  exists oop, phy. rewrite Hs. split; [exact Hl|].
  rewrite build_records_spec. split; [reflexivity|].
  unfold all_contracts. clear Hs. induction ss as [|s ss IH]; [reflexivity|].
  cbn [flat_map]. rewrite !length_app, List.filter_app, length_app, IH. f_equal.
  apply omap_length_filter. intros opt. split; [|apply extractable_is_derived].
  intros H. destruct (extractable opt) eqn:Ex; [reflexivity|].
  exfalso. apply H. now apply unextractable_skipped.
Qed.

Lemma run_record_inv (root : Element) (recs : list record) (rec : record) :
  run root = inr recs -> In rec recs ->
  exists oop phy s opt,
    locate root = inr (oop, phy) /\ In s (findall "series" oop) /\
    In opt (findall "opt" s) /\
    derive_contract (run_context phy s) opt = Some rec.
Proof.
  intros (oop & phy & ss & Hl & Hs & _ & ->)%run_inv
         (s & opt & Hin & Ho & H)%build_records_In.
  exists oop, phy, s, opt. rewrite Hs. auto.
Qed.

(** X12: every record of every run has the lot size 35, and all records of
    one run carry the same spot: the one read from the underlying, or
    [None]. *)
Theorem run_lot_and_spot_uniform (root : Element) (recs : list record) :
  run root = inr recs ->
  exists spot : option float,
    forall rec, In rec recs ->
      rec !! "lot_size" = Some (PyInt 35) /\
      rec !! "spot_from_rpf" = Some (of_opt_float spot).
Proof.
  intros (oop & phy & ss & Hl & Hs & _ & ->)%run_inv.
  exists (fst (read_underlying phy)).
  intros rec (s & opt & _ & _ & H)%build_records_In.
  apply derive_contract_inv in H
    as (ra & w & sp & n & E & T & typ & st & pr & de & _ & _ & _ & _ & Hr & ->).
  rewrite !(fixed_column_lookup _ _ _ _ _ _ _ Hr) by (cbn; tauto).
  split.
  - rewrite base_record_lot. cbn [ctx_lot_size series_context].
    now rewrite lot_size_is_35.
  - apply base_record_spot.
Qed.

(** ** Rates, columns and the header in general *)

(** X13: of several rates with one label the last one fills the two
    columns: an entry written for an earlier rate is overwritten. *)
Theorem last_rate_of_a_label_wins (l1 l2 : list float) (r : float)
    (span : float) (notional : option float) (E T : record) :
  rate_columns (l1 ++ r :: l2) span notional = Some (E, T) ->
  (forall r', In r' l2 -> rate_label r' <> rate_label r) ->
  exists ke kt, exposure_key r = Some ke /\ total_key r = Some kt /\
    E !! ke = Some (exposure_of notional r) /\
    T !! kt = Some (total_of span notional r).
Proof.
  revert E T. induction l2 as [|r' l2 IH] using rev_ind; intros E T H Hl2.
  - rewrite rate_columns_snoc in H.
    destruct (rate_columns l1 span notional) as [[E0 T0]|]; [|discriminate].
    cbn in H.
    destruct (exposure_key r) as [ke|] eqn:Hke; [|discriminate].
    destruct (total_key r) as [kt|] eqn:Hkt; [|discriminate].
    cbn in H. injection H as <- <-. exists ke, kt.
    repeat split; apply lookup_insert_eq.
  - change (l1 ++ r :: l2 ++ [r']) with (l1 ++ (r :: l2) ++ [r']) in H.
    rewrite app_assoc, rate_columns_snoc in H.
    destruct (rate_columns (l1 ++ r :: l2) span notional) as [[E0 T0]|] eqn:Er;
      [|discriminate].
    cbn in H.
    destruct (exposure_key r') as [ke'|] eqn:Hke'; [|discriminate].
    destruct (total_key r') as [kt'|] eqn:Hkt'; [|discriminate].
    cbn in H. injection H as <- <-.
    destruct (IH E0 T0 eq_refl) as (ke & kt & Hke & Hkt & He & Ht).
    { intros r0 Hin. apply Hl2, in_or_app. now left. }
    assert (rate_label r' <> rate_label r) as Hne
      by (apply Hl2, in_or_app; right; now left).
    exists ke, kt. repeat split; try assumption.
    + rewrite lookup_insert_ne; [exact He|].
      intros <-. apply Hne. exact (exposure_key_inj _ _ _ Hke' Hke).
    + rewrite lookup_insert_ne; [exact Ht|].
      intros <-. apply Hne. exact (total_key_inj _ _ _ Hkt' Hkt).
Qed.

Lemma fieldnames_fails (rates : list float) (r : float) :
  In r rates -> rate_label r = None -> fieldnames rates = None.
Proof.
  intros Hin Hr. induction rates as [|r' rates IH] using rev_ind; [destruct Hin|].
  rewrite fieldnames_snoc. apply in_app_or in Hin as [Hin|[<-|[]]].
  - now rewrite (IH Hin).
  - destruct (fieldnames rates); [|reflexivity].
    cbn. unfold exposure_key. now rewrite Hr.
Qed.

Lemma derive_contract_needs_labels (c : context) (opt : Node) (r : float) :
  In r (ctx_rates c) -> rate_label r = None -> derive_contract c opt = None.
Proof.
  intros Hin Hr. unfold derive_contract.
  destruct (find "ra" opt); [|reflexivity]. cbn [mbind option_bind].
  destruct (py_min _); [|reflexivity]. cbn [mbind option_bind].
  destruct (fmul_int _ _); [|reflexivity]. cbn [mbind option_bind].
  destruct (notional_of c); [|reflexivity]. cbn [mbind option_bind].
  now rewrite (rate_columns_fails _ _ _ _ Hin Hr).
Qed.

(** X14: a rate that is an infinity or a NaN has no label, since [int]
    raises on [r * 10000]; with a rate without label in the list every
    contract is skipped by the [except] clause and the construction of the
    header raises. *)
Theorem unlabelled_rate_skips_everything (c : context) (opt : Node) (r : float) :
  In r (ctx_rates c) ->
  rate_label r = None ->
  derive_contract c opt = None /\ fieldnames (ctx_rates c) = None /\
  rate_label S754_nan = None /\
  (forall s, rate_label (S754_infinity s) = None).
Proof.
  intros Hin Hr. split; [exact (derive_contract_needs_labels c opt r Hin Hr)|].
  split; [exact (fieldnames_fails _ _ Hin Hr)|].
  split; [reflexivity|]. intros []; reflexivity.
Qed.

Lemma fieldnames_length (rates : list float) (names : list string) :
  fieldnames rates = Some names ->
  length names = (11 + 2 * length rates)%nat.
Proof.
  revert names. induction rates as [|r rates IH] using rev_ind; intros names H.
  - injection H as <-. reflexivity.
  - rewrite fieldnames_snoc in H.
    destruct (fieldnames rates) as [names0|]; [|discriminate]. cbn in H.
    destruct (exposure_key r); [|discriminate].
    destruct (total_key r); [|discriminate]. cbn in H. injection H as <-.
    rewrite !length_app, (IH names0 eq_refl). cbn. lia.
Qed.

Lemma fieldnames_defined (rates : list float) :
  (forall r, In r rates -> rate_label r <> None) -> fieldnames rates <> None.
Proof.
  induction rates as [|r rates IH] using rev_ind; intros H; [discriminate|].
  rewrite fieldnames_snoc.
  destruct (fieldnames rates) as [names|] eqn:En.
  - cbn. unfold exposure_key, total_key.
    destruct (rate_label r) eqn:Hr; [discriminate|].
    exfalso. apply (H r); [apply in_or_app; right; now left | exact Hr].
  - exfalso. apply IH; [|reflexivity]. intros r' Hin. apply H, in_or_app. now left.
Qed.

(** X15: for any list of rates, once one record has been derived the
    header can be built, it has eleven names plus two per rate, and the
    columns of the record are exactly the names of the header: the writer
    never meets a column it does not know. *)
Theorem header_matches_records (c : context) (opt : Node) (rec : record) :
  derive_contract c opt = Some rec ->
  exists names,
    fieldnames (ctx_rates c) = Some names /\
    length names = (11 + 2 * length (ctx_rates c))%nat /\
    forall k, is_Some (rec !! k) <-> In k names.
Proof.
  intros H.
  destruct (fieldnames (ctx_rates c)) as [names|] eqn:En.
  - exists names. split; [reflexivity|]. split; [exact (fieldnames_length _ _ En)|].
    intros k. rewrite (derived_record_keys _ _ _ k H). symmetry.
    apply (fieldnames_elem _ _ En).
  - exfalso. revert En. apply fieldnames_defined. intros r Hin Hr.
    pose proof (derive_contract_needs_labels c opt r Hin Hr) as Hd.
    congruence.
Qed.

(** ** Expiry, worst value and missing underlying *)

(** X16: normalising an expiry twice is normalising it once: a normalised
    date has ten characters and is left alone. *)
Theorem normalize_expiry_idempotent (expiry_raw : string) :
  normalize_expiry (normalize_expiry expiry_raw) = normalize_expiry expiry_raw.
Proof.
  assert (eight_digits (normalize_expiry expiry_raw) = false) as Hn.
  { unfold normalize_expiry. rewrite expiry_test_eight_digits.
    destruct (eight_digits expiry_raw) eqn:E; [|exact E].
    unfold eight_digits in E. apply andb_prop in E as [E _]. apply Nat.eqb_eq in E.
    do 8 (destruct expiry_raw as [|? expiry_raw]; [discriminate|]).
    destruct expiry_raw; [|discriminate]. reflexivity. }
  unfold normalize_expiry at 1. now rewrite expiry_test_eight_digits, Hn.
Qed.

Lemma flt_nan (x : float) : flt x S754_nan = false /\ flt S754_nan x = false.
Proof. split; [now destruct x as [[]|[]| |[] m e] | reflexivity]. Qed.

Lemma min_from_skips_nan (l1 l2 : list float) (m : float) :
  min_from m (l1 ++ S754_nan :: l2) = min_from m (l1 ++ l2).
Proof.
  revert m. induction l1 as [|x l1 IH]; intros m; cbn [app min_from].
  - now rewrite (proj2 (flt_nan m)).
  - apply IH.
Qed.

Lemma min_from_nan (l : list float) : min_from S754_nan l = S754_nan.
Proof.
  induction l as [|x l IH]; [reflexivity|].
  cbn [min_from]. now rewrite (proj1 (flt_nan x)).
Qed.

(** X17: how [min] treats a NaN among the scenario values: in first
    position it is the result, whatever follows; in any other position it
    is passed over, as if it were not there. *)
Theorem min_and_nan (x : float) (l l1 l2 : list float) :
  py_min (S754_nan :: l) = Some S754_nan /\
  py_min (x :: l1 ++ S754_nan :: l2) = py_min (x :: l1 ++ l2).
Proof.
  split; cbn [py_min]; f_equal; [apply min_from_nan | apply min_from_skips_nan].
Qed.

(** X18: without underlying portfolio the run still yields its records;
    each has a float in the margin column and [None] in the spot, the
    notional and the exposure and total columns of every configured rate. *)
Theorem missing_underlying_columns (root : Element) (oop : Node)
    (recs : list record) (rec : record) :
  locate root = inr (oop, None) ->
  run root = inr recs ->
  In rec recs ->
  (exists sp, rec !! "span_per_lot" = Some (PyFloat sp)) /\
  rec !! "spot_from_rpf" = Some PyNone /\
  rec !! "notional" = Some PyNone /\
  forall r, In r EXPOSURE_RATES ->
    exists ke kt, exposure_key r = Some ke /\ total_key r = Some kt /\
                  rec !! ke = Some PyNone /\ rec !! kt = Some PyNone.
Proof.
  intros Hl Hrun Hin.
  destruct (run_record_inv _ _ _ Hrun Hin) as (oop' & phy & s & opt & Hl' & _ & _ & H).
  rewrite Hl in Hl'. injection Hl' as <- <-.
  apply derive_contract_inv in H
    as (ra & w & sp & n & E & T & typ & st & pr & de & _ & _ & _ & Hn & Hr & ->).
  cbn in Hn. injection Hn as <-.
  rewrite !(fixed_column_lookup _ _ _ _ _ _ _ Hr) by (cbn; tauto).
  split; [exists sp; apply base_record_risk|].
  split; [apply base_record_spot|]. split; [apply base_record_spot|].
  intros r Hr'.
  destruct (rate_column_lookup _ _ _ E T
              (base_record (run_context None s) typ st pr de (fabs w) sp None)
              r configured_labels_distinct Hr Hr')
    as (ke & kt & Hke & Hkt & He & Ht).
  exists ke, kt. auto.
Qed.

(** ** Matching the family code *)

Lemma case_table :
  forallb (fun n => forallb (case_agrees (ascii_of_nat n))
                            (list_ascii_of_string "BANKIFTY"))
          (seq 0 256) = true.
Proof. vm_compute. reflexivity. Qed.

Lemma case_agrees_all (c d : ascii) : symbol_letter d = true -> case_agrees c d = true.
Proof.
  intros Hd. unfold symbol_letter in Hd.
  apply existsb_exists in Hd as (d' & Hin & E). apply Ascii.eqb_eq in E. subst d'.
  pose proof case_table as Ht.
  rewrite forallb_forall in Ht.
  specialize (Ht (nat_of_ascii c)). rewrite ascii_nat_embedding in Ht.
  assert (In (nat_of_ascii c) (seq 0 256)) as Hc
    by (apply in_seq; pose proof (nat_ascii_bounded c); lia).
  apply Ht in Hc. rewrite forallb_forall in Hc. now apply Hc.
Qed.

Lemma upper_char_symbol_letter (c d : ascii) (rest : list ascii) :
  symbol_letter d = true ->
  PyStr.upper_char c = d :: rest ->
  rest = [] /\ PyStr.lower_char c = PyStr.lower_char d.
Proof.
  intros Hd Hu. pose proof (case_agrees_all c d Hd) as H.
  unfold case_agrees in H. rewrite Hu in H.
  destruct rest as [|u rest].
  - split; [reflexivity|]. rewrite Ascii.eqb_refl in H.
    apply Ascii.eqb_eq. now destruct (Ascii.eqb _ _).
  - rewrite Ascii.eqb_refl in H. discriminate.
Qed.

Lemma lower_char_symbol_letter (c d : ascii) :
  symbol_letter d = true ->
  PyStr.lower_char c = PyStr.lower_char d ->
  PyStr.upper_char c = [d].
Proof.
  intros Hd Hl. pose proof (case_agrees_all c d Hd) as H.
  unfold case_agrees in H. rewrite Hl, Ascii.eqb_refl in H.
  destruct (PyStr.upper_char c) as [|u [|u' rest]]; [discriminate| |].
  - destruct (Ascii.eqb u d) eqn:E; [|discriminate H].
    apply Ascii.eqb_eq in E. now subst.
  - rewrite andb_false_r in H. discriminate.
Qed.

Lemma upper_char_nonempty (c : ascii) : PyStr.upper_char c <> [].
Proof.
  unfold PyStr.upper_char.
  repeat match goal with |- context [if ?b then _ else _] => destruct b end;
    discriminate.
Qed.

Lemma upper_matches_iff_lower (l t : list ascii) :
  forallb symbol_letter t = true ->
  flat_map PyStr.upper_char l = t <-> map PyStr.lower_char l = map PyStr.lower_char t.
Proof.
  revert t. induction l as [|c l IH]; intros t Ht.
  - cbn. destruct t; split; try reflexivity; discriminate.
  - destruct t as [|d t].
    + cbn [flat_map map]. split; [|discriminate].
      intros H. apply app_eq_nil in H as [H _]. now apply upper_char_nonempty in H.
    + cbn [forallb] in Ht. apply andb_prop in Ht as [Hd Ht].
      cbn [flat_map map]. split.
      * intros H.
        destruct (PyStr.upper_char c) as [|u rest] eqn:Eu;
          [now apply upper_char_nonempty in Eu|].
        cbn in H. injection H as -> H.
        destruct (upper_char_symbol_letter c d rest Hd Eu) as [-> El].
        cbn in H. f_equal; [exact El | now apply IH].
      * intros [= El H].
        rewrite (lower_char_symbol_letter c d Hd El). cbn. f_equal. now apply IH.
Qed.

Lemma string_of_chars_inj (x y : list ascii) :
  string_of_list_ascii x = string_of_list_ascii y -> x = y.
Proof.
  intros H. apply (f_equal list_ascii_of_string) in H.
  now rewrite !list_ascii_string_inv in H.
Qed.

(** X19: a family code matches the symbol exactly when, stripped of the
    surrounding whitespace and put in lower case, it reads "banknifty": the
    comparison is blind to the case of each letter. *)
Theorem symbol_match_ignores_case (s : string) :
  is_symbol s = true <-> PyStr.lower (PyStr.strip s) = "banknifty"%string.
Proof.
  unfold is_symbol, SYMBOL. rewrite String.eqb_eq.
  unfold PyStr.upper, PyStr.lower.
  set (l := list_ascii_of_string (PyStr.strip s)).
  change "BANKNIFTY"%string
    with (string_of_list_ascii (list_ascii_of_string "BANKNIFTY")).
  change "banknifty"%string
    with (string_of_list_ascii
            (map PyStr.lower_char (list_ascii_of_string "BANKNIFTY"))).
  split; intros H%string_of_chars_inj; f_equal;
    now apply (upper_matches_iff_lower l (list_ascii_of_string "BANKNIFTY")).
Qed.

(** ** The further properties on the sample data *)

(** Reading the stem [day1] with five calls allowed. *)
Lemma loader_terminates_witness :
  exists r, Loader.read_spn_from_path 5 MoreSamples.fs1 "day1" = Some r /\
            Loader.read_spn_from_path 2 MoreSamples.fs1 "day1" = Some r.
Proof. apply (loader_terminates MoreSamples.fs1 "day1" 5). lia. Defined.

(** Both [day1.zip] and [day1.spn] exist: the archive is read, and its
    first [.spn] member, whatever the case of its name, is returned. *)
Lemma loader_prefers_archive_witness :
  Loader.read_spn_from_path 2 MoreSamples.fs1 "day1" = Some (inr "<a/>"%string).
Proof.
  rewrite (loader_prefers_archive MoreSamples.fs1 "day1" 0).
  - vm_compute. reflexivity.
  - vm_compute. reflexivity.
  - vm_compute. reflexivity.
Defined.

Lemma archive_first_spn_member_witness :
  Loader.read_zip MoreSamples.fs1 "day1.zip" = inr "<a/>"%string.
Proof.
  apply (archive_first_spn_member MoreSamples.fs1 "day1.zip" MoreSamples.archive
           [("readme.txt", "notes"); ("NSCCL.SPN", "<a/>"); ("x.spn", "<b/>")]%string
           [("readme.txt", "notes")]%string [("x.spn", "<b/>")]%string
           "NSCCL.SPN" "<a/>").
  - vm_compute. reflexivity.
  - reflexivity.
  - reflexivity.
  - repeat constructor.
  - vm_compute. reflexivity.
  - cbn. intros [H|[]]. discriminate H.
Defined.

(** In [Samples.two_blocks] the scan runs and takes the second block. *)
Lemma child_scan_takes_last_witness :
  oop_pf (by_children Samples.two_blocks_clearing
                      (earlier_strategies Samples.two_blocks_clearing))
  = Some MoreSamples.two_blocks_second.
Proof.
  apply (child_scan_takes_last Samples.two_blocks_clearing _
           [Samples.two_blocks_first] [] MoreSamples.two_blocks_second).
  - right. vm_compute. reflexivity.
  - vm_compute. reflexivity.
  - vm_compute. reflexivity.
  - constructor.
Defined.

Lemma located_options_shape_witness :
  In MoreSamples.minimal_oop (iter Samples.minimal_clearing) /\
  (PyStr.lower (ntag MoreSamples.minimal_oop) = "ooppf"%string \/
   (In MoreSamples.minimal_oop (kids Samples.minimal_clearing) /\
    scan_takes_options MoreSamples.minimal_oop = true)).
Proof.
  apply (located_options_shape Samples.minimal_clearing MoreSamples.minimal_oop).
  vm_compute. reflexivity.
Defined.

(** The only options block of [MoreSamples.other_symbol] belongs to NIFTY;
    it is returned all the same. *)
Lemma tag_search_ignores_symbol_witness :
  earlier_strategies MoreSamples.other_symbol_clearing
  = {| oop_pf := find_desc "oopPf" MoreSamples.other_symbol_clearing;
       phy_pf := find_desc "phyPf" MoreSamples.other_symbol_clearing |} /\
  (find_desc "oopPf" MoreSamples.other_symbol_clearing
     ≫= findtext "pfCode") = Some "NIFTY"%string.
Proof.
  split; [|vm_compute; reflexivity].
  apply (tag_search_ignores_symbol MoreSamples.other_symbol_clearing).
  vm_compute. repeat constructor.
Defined.

Lemma records_follow_document_witness :
  exists rec oop phy,
    run Samples.minimal = inr [rec] /\
    locate Samples.minimal = inr (oop, phy) /\
    length (List.filter extractable (all_contracts (findall "series" oop))) = 1%nat.
Proof.
  pose proof minimal_one_record as Hlen.
  destruct (run Samples.minimal) as [e|[|rec [|? ?]]] eqn:E; try discriminate Hlen.
  destruct (records_follow_document Samples.minimal [rec] E)
    as (oop & phy & Hl & _ & Hn).
  exists rec, oop, phy. split; [reflexivity|]. split; [exact Hl|].
  symmetry. exact Hn.
Defined.

Lemma run_lot_and_spot_uniform_witness :
  exists rec spot,
    run Samples.minimal = inr [rec] /\
    rec !! "lot_size" = Some (PyInt 35) /\
    rec !! "spot_from_rpf" = Some (of_opt_float spot).
Proof.
  pose proof minimal_one_record as Hlen.
  destruct (run Samples.minimal) as [e|[|rec [|? ?]]] eqn:E; try discriminate Hlen.
  destruct (run_lot_and_spot_uniform Samples.minimal [rec] E) as (spot & H).
  destruct (H rec (or_introl eq_refl)) as [H1 H2].
  exists rec, spot. auto.
Defined.

Lemma shared_label : rate_label MoreSamples.rate_2269 = rate_label rate_2265.
Proof. vm_compute. reflexivity. Qed.

(** With the rates 0.02265 and 0.02269, in this order, the columns
    labelled 2.2600 hold the amounts of 0.02269. *)
Lemma last_rate_of_a_label_wins_witness :
  exists E T,
    rate_columns [rate_2265; MoreSamples.rate_2269] f1234_5 (Some f1234_5)
    = Some (E, T) /\
    E !! "exposure_2.2600_pct"
    = Some (exposure_of (Some f1234_5) MoreSamples.rate_2269) /\
    T !! "total_2.2600_pct"
    = Some (total_of f1234_5 (Some f1234_5) MoreSamples.rate_2269).
Proof.
  destruct (rate_columns [rate_2265; MoreSamples.rate_2269] f1234_5 (Some f1234_5))
    as [[E T]|] eqn:Er.
  - exists E, T. split; [reflexivity|].
    destruct (last_rate_of_a_label_wins [rate_2265] [] MoreSamples.rate_2269
                f1234_5 (Some f1234_5) E T Er) as (ke & kt & Hke & Hkt & He & Ht).
    { intros r' []. }
    vm_compute in Hke. injection Hke as <-.
    vm_compute in Hkt. injection Hkt as <-. auto.
  - exfalso. revert Er. apply rate_columns_defined.
    intros r [<-|[<-|[]]]; vm_compute; discriminate.
Defined.

Lemma unlabelled_rate_skips_everything_witness :
  derive_contract MoreSamples.ctx_infinite_rate (Samples.at_root Samples.opt1) = None /\
  fieldnames [S754_infinity false] = None.
Proof.
  destruct (unlabelled_rate_skips_everything MoreSamples.ctx_infinite_rate
              (Samples.at_root Samples.opt1) (S754_infinity false))
    as (H1 & H2 & _).
  - left. reflexivity.
  - reflexivity.
  - split; [exact H1 | exact H2].
Defined.

Lemma header_matches_records_witness :
  exists rec names,
    derive_contract Samples.ctx1 (Samples.at_root Samples.opt1) = Some rec /\
    fieldnames EXPOSURE_RATES = Some names /\
    length names = 15%nat /\
    forall k, is_Some (rec !! k) <-> In k names.
Proof.
  pose proof opt1_is_derived as Hd.
  destruct (derive_contract Samples.ctx1 (Samples.at_root Samples.opt1))
    as [rec|] eqn:E; [|discriminate Hd].
  destruct (header_matches_records _ _ rec E) as (names & Hn & Hlen & Hk).
  exists rec, names. auto.
Defined.

Lemma no_underlying_one_record :
  match run Samples.no_underlying with
  | inr recs => length recs
  | inl _ => 0%nat
  end = 1%nat.
Proof. vm_compute. reflexivity. Qed.

Lemma missing_underlying_columns_witness :
  exists rec,
    run Samples.no_underlying = inr [rec] /\
    (exists sp, rec !! "span_per_lot" = Some (PyFloat sp)) /\
    rec !! "spot_from_rpf" = Some PyNone /\
    rec !! "notional" = Some PyNone.
Proof.
  pose proof no_underlying_one_record as Hlen.
  destruct (run Samples.no_underlying) as [e|[|rec [|? ?]]] eqn:E;
    try discriminate Hlen.
  exists rec. split; [reflexivity|].
  destruct (missing_underlying_columns Samples.no_underlying
              MoreSamples.no_underlying_oop [rec] rec)
    as (H1 & H2 & H3 & _).
  - vm_compute. reflexivity.
  - exact E.
  - now left.
  - auto.
Defined.

(** The blocks of [MoreSamples.untagged_clearing] have other tags and
    differently written family codes; the scan finds the underlying. *)
Lemma child_scan_underlying_last_witness :
  phy_pf (by_children MoreSamples.untagged_clearing
                      (earlier_strategies MoreSamples.untagged_clearing))
  = Some MoreSamples.untagged_underlying_node /\
  scan_takes_options MoreSamples.untagged_underlying_node = false.
Proof.
  apply (child_scan_underlying_last MoreSamples.untagged_clearing _
           [] [([0; 0; 1]%nat, MoreSamples.untagged_options)]
           MoreSamples.untagged_underlying_node).
  - left. vm_compute. reflexivity.
  - vm_compute. reflexivity.
  - vm_compute. reflexivity.
  - repeat constructor.
Defined.
